(** * WME Venue Data Crawler v0.2.1: the extraction and classification core

    A shallow embedding of [wme-venue-data-crawler-v0.2.1.user.js] and the
    properties of its analyzer, query builder, content extractor, scan
    collector and lookup orchestrator.

    Conventions of the embedding.
    - A JavaScript string is a [string]: its characters are the code units
      below 256.
    - A venue attribute that is [null], [undefined] or absent is [None].
    - The script's [state] object is a record; the entry objects held by
      [state.scannedVenues] live in a heap of objects addressed by their
      index, because closures of pending requests keep references to them.
    - The host's builtins with no source in the script ([JSON.parse],
      [decodeURIComponent]) are variables of a section.
    - DOM writes ([updateVenueItemUI], [updateStatsDisplay],
      [updateVenueList]) are not part of the state; of the console only the
      line that ends a scan is kept, as a value next to the state. *)

From Stdlib Require Import String Ascii List ZArith QArith Bool Lia.
From stdpp Require Import gmap strings list.
Import ListNotations.

Set Warnings "-register-all".

Local Open Scope string_scope.
Local Open Scope list_scope.
Local Open Scope nat_scope.

(** ** JavaScript strings *)

Module JsString.

(** WhiteSpace and LineTerminator code units below 256: TAB, LF, VT, FF,
    CR, SP and NBSP.  [String.prototype.trim] strips exactly these. *)
Definition is_white (c : ascii) : bool :=
  let n := nat_of_ascii c in
  (Nat.leb 9 n && Nat.leb n 13) || Nat.eqb n 32 || Nat.eqb n 160.

Fixpoint trimStart (s : string) : string :=
  match s with
  | String c s' => if is_white c then trimStart s' else s
  | EmptyString => EmptyString
  end.

Fixpoint trimEnd (s : string) : string :=
  match s with
  | String c s' =>
      match trimEnd s' with
      | EmptyString => if is_white c then EmptyString else String c EmptyString
      | t => String c t
      end
  | EmptyString => EmptyString
  end.

Definition trim (s : string) : string := trimEnd (trimStart s).

(** [s === ''] *)
Definition is_empty_string (s : string) : bool :=
  match s with EmptyString => true | _ => false end.

(** ToBoolean of a string: the empty string is the only falsy one. *)
Definition truthy (s : string) : bool := negb (is_empty_string s).

(** [a || b] on a possibly absent string with a string default. *)
Definition or_default (a : option string) (b : string) : string :=
  match a with
  | Some s => if truthy s then s else b
  | None => b
  end.

Fixpoint all_white (s : string) : bool :=
  match s with
  | String c s' => is_white c && all_white s'
  | EmptyString => true
  end.

End JsString.

(** ** Regular expressions

    The script's regular-expression literals use literal characters,
    character classes, the quantifiers [?], [*], [+], [*?] and [{n}] (the
    last four on single characters only), capturing groups and [\b].  The
    matcher below is the backtracking matcher of the language specification
    restricted to these forms, written in continuation-passing style. *)

Module Regex.

(** A pattern that matches one character. *)
Inductive cclass :=
| Chr (c : ascii)              (* a literal character *)
| OneOf (cs : list ascii)      (* [...] *)
| NoneOf (cs : list ascii)     (* [^...] *)
| Digit                        (* [0-9] *)
| AnyChar.                     (* [\s\S] *)

Inductive regex :=
| Eps
| One (c : cclass)
| Seq (r1 r2 : regex)
| Opt (r : regex)              (* r?, greedy *)
| Star (c : cclass)            (* c*, greedy *)
| StarLazy (c : cclass)        (* c*?, lazy *)
| Group (i : nat) (r : regex)  (* the i-th capturing group *)
| WordBoundary.                (* \b *)

(** A regular-expression object: pattern and flags. *)
Record regexp := {
  pattern : regex;
  ignoreCase : bool;
  global : bool
}.

(** Canonicalize of the [i] flag.  The literals of the script contain
    characters below 128 only, and no character from 128 on canonicalizes
    to one below 128, so upper-casing a-z decides every comparison. *)
Definition to_upper (c : ascii) : ascii :=
  let n := nat_of_ascii c in
  if Nat.leb 97 n && Nat.leb n 122 then ascii_of_nat (n - 32) else c.

Definition same_char (ic : bool) (a b : ascii) : bool :=
  if ic then Ascii.eqb (to_upper a) (to_upper b) else Ascii.eqb a b.

Definition is_digit (c : ascii) : bool :=
  let n := nat_of_ascii c in Nat.leb 48 n && Nat.leb n 57.

(** IsWordChar: [A-Za-z0-9_] *)
Definition is_word_char (c : ascii) : bool :=
  let n := nat_of_ascii c in
  (Nat.leb 97 n && Nat.leb n 122) || (Nat.leb 65 n && Nat.leb n 90)
  || is_digit c || Nat.eqb n 95.

Definition cmatch (ic : bool) (cl : cclass) (x : ascii) : bool :=
  match cl with
  | Chr c => same_char ic c x
  | OneOf cs => existsb (fun c => same_char ic c x) cs
  | NoneOf cs => negb (existsb (fun c => same_char ic c x) cs)
  | Digit => is_digit x
  | AnyChar => true
  end.

(** The matcher's state: the index reached, the character before it, the
    input from it on, and the captures so far (latest first). *)
Record mstate := {
  pos : nat;
  prev : option ascii;
  rest : string;
  caps : list (nat * string)
}.

Definition advance (st : mstate) (x : ascii) (xs : string) : mstate :=
  {| pos := S (pos st); prev := Some x; rest := xs; caps := caps st |}.

Definition set_cap (i : nat) (text : string) (st : mstate) : mstate :=
  {| pos := pos st; prev := prev st; rest := rest st;
     caps := (i, text) :: caps st |}.

Definition head_char (s : string) : option ascii :=
  match s with String x _ => Some x | EmptyString => None end.

Definition is_word_at (c : option ascii) : bool :=
  match c with Some x => is_word_char x | None => false end.

Definition orelse {A} (a b : option A) : option A :=
  match a with Some _ => a | None => b end.

(** [c*]: one more character first, the continuation on failure. *)
Fixpoint star_greedy (p : ascii → bool) (k : mstate → option mstate)
    (i : nat) (pv : option ascii) (cs : list (nat * string)) (s : string)
    : option mstate :=
  let here := k {| pos := i; prev := pv; rest := s; caps := cs |} in
  match s with
  | String x xs =>
      if p x then orelse (star_greedy p k (S i) (Some x) cs xs) here else here
  | EmptyString => here
  end.

(** [c*?]: the continuation first, one more character on failure. *)
Fixpoint star_lazy (p : ascii → bool) (k : mstate → option mstate)
    (i : nat) (pv : option ascii) (cs : list (nat * string)) (s : string)
    : option mstate :=
  let here := k {| pos := i; prev := pv; rest := s; caps := cs |} in
  match s with
  | String x xs =>
      if p x then orelse here (star_lazy p k (S i) (Some x) cs xs) else here
  | EmptyString => here
  end.

Fixpoint run (ic : bool) (r : regex) (k : mstate → option mstate)
    (st : mstate) : option mstate :=
  match r with
  | Eps => k st
  | One c =>
      match rest st with
      | String x xs => if cmatch ic c x then k (advance st x xs) else None
      | EmptyString => None
      end
  | Seq r1 r2 => run ic r1 (run ic r2 k) st
  | Opt r1 => orelse (run ic r1 k st) (k st)
  | Star c => star_greedy (cmatch ic c) k (pos st) (prev st) (caps st) (rest st)
  | StarLazy c => star_lazy (cmatch ic c) k (pos st) (prev st) (caps st) (rest st)
  | Group i r1 =>
      run ic r1
        (fun st' => k (set_cap i (substring 0 (pos st' - pos st) (rest st)) st'))
        st
  | WordBoundary =>
      if xorb (is_word_at (prev st)) (is_word_at (head_char (rest st)))
      then k st else None
  end.

(** A match: [index], the matched text ([match[0]]), the captures and the
    index after the match. *)
Record MatchResult := {
  index : nat;
  matched : string;
  captures : list (nat * string);
  end_index : nat
}.

(** [match[i]] for a group [i >= 1]; [None] is [undefined]. *)
Definition group (i : nat) (m : MatchResult) : option string :=
  snd <$> List.find (fun c => Nat.eqb (fst c) i) (captures m).

(** The leftmost match starting at index [i] or later; [s] is the input
    from [i] on and [pv] the character before it. *)
Fixpoint search_from (re : regexp) (i : nat) (pv : option ascii) (s : string)
    : option MatchResult :=
  match run (ignoreCase re) (pattern re) Some
            {| pos := i; prev := pv; rest := s; caps := [] |} with
  | Some st' =>
      Some {| index := i; matched := substring 0 (pos st' - i) s;
              captures := caps st'; end_index := pos st' |}
  | None =>
      match s with
      | String x xs => search_from re (S i) (Some x) xs
      | EmptyString => None
      end
  end.

Fixpoint drop (n : nat) (s : string) : string :=
  match n, s with
  | S n', String _ s' => drop n' s'
  | _, _ => s
  end.

Definition char_before (i : nat) (s : string) : option ascii :=
  match i with 0 => None | S j => String.get j s end.

(** [re.exec(s)] for a regular expression whose [lastIndex] is
    [lastIndex]; with the [g] flag the search starts there and the new
    [lastIndex] is [end_index] of the result (0 when there is none),
    without it the search starts at 0. *)
Definition exec (re : regexp) (s : string) (lastIndex : nat)
    : option MatchResult :=
  let start := if global re then lastIndex else 0 in
  if Nat.ltb (String.length s) start then None
  else search_from re start (char_before start s) (drop start s).

(** [s.match(re)] for a regular expression without the [g] flag. *)
Definition String_match (s : string) (re : regexp) : option MatchResult :=
  exec re s 0.

(** Notation of the literals. *)
Fixpoint lit (s : string) : regex :=
  match s with
  | String c s' => Seq (One (Chr c)) (lit s')
  | EmptyString => Eps
  end.

Definition seq (rs : list regex) : regex := fold_right Seq Eps rs.

Definition plus (c : cclass) : regex := Seq (One c) (Star c).

Definition rep (n : nat) (c : cclass) : regex := Nat.iter n (Seq (One c)) Eps.

(** Whether every match of the pattern takes at least one character. *)
Fixpoint consumes (r : regex) : bool :=
  match r with
  | One _ => true
  | Seq r1 r2 => consumes r1 || consumes r2
  | Group _ r1 => consumes r1
  | _ => false
  end.

(** The continuation [k] yields [res] on a state [n] or more characters
    after index [i], where [s] is the input from [i] on. *)
Definition reaches (res : mstate) (k : mstate → option mstate) (n i : nat)
    (s : string) : Prop :=
  ∃ st', k st' = Some res ∧ i + n ≤ pos st'
         ∧ pos st' + String.length (rest st') = i + String.length s.

End Regex.

(** ** JavaScript values and exceptions *)

(** The values [JSON.parse] produces; the fields of an extraction result are
    such values too.  A number is a rational: the script observes of a
    number only whether it is zero. *)
Inductive json :=
| JNull
| JBool (b : bool)
| JNum (q : Q)
| JStr (s : string)
| JArr (items : list json)
| JObj (props : list (string * json)).

Inductive js_error :=
| TypeError (message : string)
| SyntaxError
| URIError
| Error (message : string)
| RequestFailed.                 (* the argument the host passes to [onerror] *)

(** The completion of a statement list: normal, or abrupt by [throw]. *)
Inductive completion (A : Type) :=
| Normal (a : A)
| Throw (e : js_error).
Arguments Normal {A} a.
Arguments Throw {A} e.

#[global] Instance completion_ret : MRet completion := @Normal.

#[global] Instance completion_bind : MBind completion := λ A B f c,
  match c with
  | Normal a => f a
  | Throw e => Throw e
  end.

(** [a || b] on conditions: [b] is evaluated only when [a] is false. *)
Definition or_else (a b : completion bool) : completion bool :=
  match a with
  | Normal true => Normal true
  | Normal false => b
  | Throw e => Throw e
  end.

(** [name = value] where [name] was declared with [const]: strict-mode code
    throws a TypeError when the assignment is evaluated. *)
Definition assign_to_const {A} (name : string) (value : A) : completion A :=
  Throw (TypeError "Assignment to constant variable.").

(** ToBoolean of a value that is an object or [null]. *)
Definition non_null {A} (o : option A) : bool :=
  match o with Some _ => true | None => false end.

Module Js.

(** ToBoolean *)
Definition truthy (v : json) : bool :=
  match v with
  | JNull => false
  | JBool b => b
  | JNum q => negb (Qeq_bool q 0)
  | JStr s => JsString.truthy s
  | JArr _ | JObj _ => true
  end.

(** [v || null], where [None] is [undefined] *)
Definition or_null (v : option json) : json :=
  match v with
  | Some j => if truthy j then j else JNull
  | None => JNull
  end.

(** The value of an own property of an object built by [JSON.parse]: of
    two members with one name the later wins. *)
Fixpoint own_property (key : string) (props : list (string * json))
    : option json :=
  match props with
  | [] => None
  | (k, v) :: props' =>
      match own_property key props' with
      | Some v' => Some v'
      | None => if String.eqb k key then Some v else None
      end
  end.

(** [item[key]] for the keys the script reads ([@type], [telephone],
    [url], [address], [name], [streetAddress]): reading a property of
    [null] throws; strings, numbers, booleans and arrays have no such
    property. *)
Definition get (item : json) (key : string) : completion (option json) :=
  match item with
  | JNull => Throw (TypeError "Cannot read properties of null")
  | JObj props => Normal (own_property key props)
  | _ => Normal None
  end.

(** [item?.[key]] where [item] may be [undefined] *)
Definition get_optional (item : option json) (key : string) : option json :=
  match item with
  | Some (JObj props) => own_property key props
  | _ => None
  end.

Fixpoint string_includes (s needle : string) : bool :=
  String.prefix needle s
  || match s with
     | String _ s' => string_includes s' needle
     | EmptyString => false
     end.

(** [type.includes(needle)]: substring search on a string, membership on
    an array; any other value has no callable [includes]. *)
Definition includes (type : json) (needle : string) : completion bool :=
  match type with
  | JStr s => Normal (string_includes s needle)
  | JArr items =>
      Normal (existsb (fun x => match x with
                                | JStr s => String.eqb s needle
                                | _ => false
                                end) items)
  | _ => Throw (TypeError "type.includes is not a function")
  end.

End Js.

(** ** Constants *)

(** [SEVERITY]: an enum of numbers. *)
Inductive Severity := COMPLETE | MINOR | MAJOR | CRITICAL.

Definition severity_value (s : Severity) : nat :=
  match s with COMPLETE => 0 | MINOR => 1 | MAJOR => 2 | CRITICAL => 3 end.

(** The attributes of a WME venue object that the script reads. *)
Record VenueAttributes := {
  attr_id : string;
  attr_name : option string;
  attr_phone : option string;
  attr_url : option string;
  attr_streetName : option string;
  attr_categories : option (list string)
}.

Record Venue := {
  venue_type : string;
  attributes : VenueAttributes
}.

(** [REQUIRED_FIELDS]: the attribute read and the label reported. *)
Definition REQUIRED_FIELDS : list ((VenueAttributes → option string) * string) :=
  [ (attr_name, "Name"); (attr_phone, "Phone"); (attr_url, "Website") ].

(** [EXCLUDED_CATEGORIES] *)
Definition EXCLUDED_CATEGORIES : list string :=
  [ "RESIDENCE_HOME"; "NATURAL_FEATURES"; "SCENIC_LOOKOUT_VIEW_POINT"; "PARK";
    "JUNCTION_INTERCHANGE"; "BRIDGE"; "TUNNEL"; "ISLAND"; "SEA_LAKE_POOL";
    "RIVER_STREAM"; "CANAL"; "FOREST_GROVE" ].

(** The properties of the object literal [CATEGORY_HINTS], in source order. *)
Definition CATEGORY_HINTS_literal : list (string * string) :=
  [ ("SCHOOL", "school"); ("CAFE", "cafe"); ("COFFEE_SHOP", "coffee");
    ("FOOD_AND_DRINK", "restaurant"); ("RESTAURANT", "restaurant");
    ("FAST_FOOD", "restaurant"); ("GAS_STATION", "gas station");
    ("CONVENIENCE_STORE", "convenience store");
    ("DOCTOR_CLINIC", "medical clinic"); ("HOSPITAL_MEDICAL_CARE", "hospital");
    ("PHARMACY", "pharmacy"); ("GARAGE_AUTOMOTIVE_SHOP", "auto repair");
    ("CAR_WASH", "car wash"); ("SHOPPING_AND_SERVICES", "store");
    ("DEPARTMENT_STORE", "store"); ("GROCERY_STORE", "grocery");
    ("HOTEL", "hotel"); ("BANK_FINANCIAL", "bank");
    ("POST_OFFICE", "post office"); ("LIBRARY", "library");
    ("GYM_FITNESS", "gym"); ("OUTDOORS", "outdoor recreation");
    ("PET_STORE_VETERINARIAN_SERVICES", "veterinary"); ("OFFICES", "office") ].

(** The own properties of [CATEGORY_HINTS], the object used as a map from
    category tag to hint. *)
Definition CATEGORY_HINTS : gmap string string :=
  list_to_map CATEGORY_HINTS_literal.

(** The members [CATEGORY_HINTS] inherits from [Object.prototype], in a
    browser whose prototype no script has changed, each with the text it
    gives in a string concatenation.  Eleven are built-in functions, whose
    text is host-defined within the form [function name() { [native code] }]
    and is given here as V8 prints it; [__proto__] reads as the prototype
    object itself. *)
Definition Object_prototype : gmap string string :=
  list_to_map
    [ ("constructor", "function Object() { [native code] }");
      ("hasOwnProperty", "function hasOwnProperty() { [native code] }");
      ("isPrototypeOf", "function isPrototypeOf() { [native code] }");
      ("propertyIsEnumerable", "function propertyIsEnumerable() { [native code] }");
      ("toLocaleString", "function toLocaleString() { [native code] }");
      ("toString", "function toString() { [native code] }");
      ("valueOf", "function valueOf() { [native code] }");
      ("__defineGetter__", "function __defineGetter__() { [native code] }");
      ("__defineSetter__", "function __defineSetter__() { [native code] }");
      ("__lookupGetter__", "function __lookupGetter__() { [native code] }");
      ("__lookupSetter__", "function __lookupSetter__() { [native code] }");
      ("__proto__", "[object Object]") ].

(** A value of [CATEGORY_HINTS[category] || '']: a string, or a member
    inherited from [Object.prototype], kept with its text. *)
Inductive HintValue :=
| HintString (s : string)
| InheritedMember (text : string).

(** ToBoolean: an inherited member is a function or an object. *)
Definition hint_truthy (h : HintValue) : bool :=
  match h with
  | HintString s => JsString.truthy s
  | InheritedMember _ => true
  end.

(** ToString, as [' ' + categoryHint] applies it. *)
Definition hint_text (h : HintValue) : string :=
  match h with
  | HintString s => s
  | InheritedMember text => text
  end.

(** ** Utility functions *)

(** [isEmpty(value)] for a value that is a string or absent. *)
Definition isEmpty (value : option string) : bool :=
  match value with
  | None => true
  | Some s => JsString.is_empty_string (JsString.trim s)
  end.

(** ** Location helpers *)

(** [getCategoryHint(category)]: [CATEGORY_HINTS[category] || ''].  The
    property read finds an own property first and an inherited one
    otherwise. *)
Definition getCategoryHint (category : string) : HintValue :=
  match CATEGORY_HINTS !! category with
  | Some hint => if JsString.truthy hint then HintString hint else HintString ""
  | None =>
      match Object_prototype !! category with
      | Some text => InheritedMember text
      | None => HintString ""                          (* undefined || '' *)
      end
  end.

(** [buildSearchQuery(venueName, categories, cityName, stateAbbr)] *)
Definition buildSearchQuery (venueName : string) (categories : list string)
    (cityName stateAbbr : string) : string :=
  let query := venueName in
  let query :=
    match categories with
    | category0 :: _ =>
        let categoryHint := getCategoryHint category0 in
        if hint_truthy categoryHint then query +:+ " " +:+ hint_text categoryHint
        else query
    | [] => query
    end in
  let query :=
    if JsString.truthy cityName && JsString.truthy stateAbbr
    then query +:+ " " +:+ cityName +:+ " " +:+ stateAbbr
    else query in
  query.

(** ** Web scraping *)

Import Regex.

Definition phoneRegex : regexp :=
  {| pattern :=
       seq [ WordBoundary;
             Opt (seq [ Opt (One (Chr "+")); One (Chr "1");
                        Opt (One (OneOf ["-"; "."]%char)) ]);
             Opt (One (Chr "("));
             Group 1 (rep 3 Digit);
             Opt (One (Chr ")"));
             Opt (One (OneOf ["-"; "."]%char));
             Group 2 (rep 3 Digit);
             Opt (One (OneOf ["-"; "."]%char));
             Group 3 (rep 4 Digit);
             WordBoundary ];
     ignoreCase := false; global := false |}.

(** [extractPhoneRegex(text)] *)
Definition extractPhoneRegex (text : string) : option string :=
  match String_match text phoneRegex with
  | Some m => Some (matched m)
  | None => None
  end.

Definition quote : cclass := OneOf ["034"; "'"]%char.

Definition scriptRegex : regexp :=
  {| pattern :=
       seq [ lit "<script"; Star (NoneOf [">"]%char); lit "type="; One quote;
             lit "application/ld+json"; One quote; Star (NoneOf [">"]%char);
             lit ">"; Group 1 (StarLazy AnyChar); lit "</script>" ];
     ignoreCase := true; global := true |}.

(** The object [extractSchemaOrg] returns for a qualifying item. *)
Definition schema_fields (item : json) : completion (gmap string json) :=
  telephone ← Js.get item "telephone";
  url ← Js.get item "url";
  address ← Js.get item "address";
  name ← Js.get item "name";
  Normal (<["phone" := Js.or_null telephone]>
          (<["website" := Js.or_null url]>
           (<["address" := Js.or_null (Js.get_optional address "streetAddress")]>
            (<["name" := Js.or_null name]> ∅)))).

(** The condition on [type]: [type && (type.includes(..) || ..)] *)
Definition is_business_type (type : option json) : completion bool :=
  match type with
  | None => Normal false
  | Some t =>
      if Js.truthy t then
        or_else (Js.includes t "LocalBusiness")
          (or_else (Js.includes t "Restaurant")
             (or_else (Js.includes t "Organization")
                (Js.includes t "Store")))
      else Normal false
  end.

(** The loop [for (const item of items)]: [Some] is its [return]. *)
Fixpoint schema_items (items : list json) : completion (option (gmap string json)) :=
  match items with
  | [] => Normal None
  | item :: items' =>
      type ← Js.get item "@type";
      business ← is_business_type type;
      if (business : bool) then
        fields ← schema_fields item;
        Normal (Some fields)
      else schema_items items'
  end.

Inductive loop_result (A : Type) :=
| Returned (a : A)
| OutOfFuel.
Arguments Returned {A} a.
Arguments OutOfFuel {A}.

Section Extractor.

(** [JSON.parse]: [None] when it throws a SyntaxError. *)
Variable JSON_parse : string → option json.

(** The body of the inner [try] for one script block. *)
Definition schema_block (jsonText : string)
    : completion (option (gmap string json)) :=
  match JSON_parse jsonText with
  | None => Throw SyntaxError
  | Some data =>
      let items := match data with JArr l => l | _ => [data] end in
      schema_items items
  end.

(** The loop [while ((match = scriptRegex.exec(html)) !== null)]; the
    inner [catch] continues with the next match. *)
Fixpoint schema_loop (fuel : nat) (html : string) (lastIndex : nat)
    : loop_result (option (gmap string json)) :=
  match fuel with
  | 0 => OutOfFuel
  | S fuel' =>
      match exec scriptRegex html lastIndex with
      | None => Returned None
      | Some m =>
          match schema_block (default "" (group 1 m)) with
          | Normal (Some fields) => Returned (Some fields)
          | Normal None | Throw _ => schema_loop fuel' html (end_index m)
          end
      end
  end.

(** [extractSchemaOrg(html)].  Every iteration moves [lastIndex] forward,
    so the length of [html] bounds the number of iterations. *)
Definition extractSchemaOrg (html : string) : option (gmap string json) :=
  match schema_loop (S (String.length html)) html 0 with
  | Returned r => r
  | OutOfFuel => None
  end.

(** The texts of the script blocks [scriptRegex] finds in [html], in
    document order from [lastIndex] on. *)
Fixpoint script_blocks (fuel : nat) (html : string) (lastIndex : nat)
    : list string :=
  match fuel with
  | 0 => []
  | S fuel' =>
      match exec scriptRegex html lastIndex with
      | None => []
      | Some m => default "" (group 1 m) :: script_blocks fuel' html (end_index m)
      end
  end.

Definition ld_json_blocks (html : string) : list string :=
  script_blocks (S (String.length html)) html 0.

(** The first block, in order, whose processing returns an object. *)
Fixpoint first_business_block (blocks : list string)
    : option (gmap string json) :=
  match blocks with
  | [] => None
  | b :: blocks' =>
      match schema_block b with
      | Normal (Some fields) => Some fields
      | Normal None | Throw _ => first_business_block blocks'
      end
  end.

Definition meta_pattern (attribute value : string) : regexp :=
  {| pattern :=
       seq [ lit "<meta"; Star (NoneOf [">"]%char); lit attribute; lit "=";
             One quote; lit value; One quote; Star (NoneOf [">"]%char);
             lit "content="; One quote;
             Group 1 (plus (NoneOf ["034"; "'"]%char)); One quote ];
     ignoreCase := true; global := false |}.

Definition phonePatterns : list regexp :=
  [ meta_pattern "property" "business:contact_data:phone_number";
    meta_pattern "name" "telephone";
    meta_pattern "itemprop" "telephone" ].

Definition websitePatterns : list regexp :=
  [ meta_pattern "property" "og:url";
    meta_pattern "itemprop" "url" ].

Definition addressPatterns : list regexp :=
  [ meta_pattern "property" "business:contact_data:street_address";
    meta_pattern "itemprop" "streetAddress" ].

(** The loop [for (const pattern of patterns)] with its [break]. *)
Fixpoint first_pattern_match (patterns : list regexp) (html : string)
    : option string :=
  match patterns with
  | [] => None
  | pattern :: patterns' =>
      match String_match html pattern with
      | Some m =>
          match group 1 m with
          | Some g => if JsString.truthy g then Some g
                      else first_pattern_match patterns' html
          | None => first_pattern_match patterns' html
          end
      | None => first_pattern_match patterns' html
      end
  end.

Definition string_or_null (s : option string) : json :=
  match s with Some x => JStr x | None => JNull end.

(** [extractMicrodata(html)] *)
Definition extractMicrodata (html : string) : option (gmap string json) :=
  let phone := first_pattern_match phonePatterns html in
  let website := first_pattern_match websitePatterns html in
  let address := first_pattern_match addressPatterns html in
  if negb (Js.truthy (string_or_null phone))
     && negb (Js.truthy (string_or_null website))
     && negb (Js.truthy (string_or_null address))
  then None
  else Some (<["phone" := string_or_null phone]>
             (<["website" := string_or_null website]>
              (<["address" := string_or_null address]> ∅))).

(** [extractWithRegex(html)] *)
Definition extractWithRegex (html : string) : option (gmap string json) :=
  let phone := string_or_null (extractPhoneRegex html) in
  if negb (Js.truthy phone) then None
  else Some (<["phone" := phone]>
             (<["website" := JNull]> (<["address" := JNull]> ∅))).

(** The body of the [try] in the [onload] handler of [scrapeWebsite]: the
    object passed to [callback(null, ..)]. *)
Definition scrape_response (url html : string) : completion (gmap string json) :=
  let extractedData := extractSchemaOrg html in
  let method : option string :=                       (* const method *)
    if non_null extractedData then Some "Schema.org" else None in
  '(extractedData, method) ←
     (if negb (non_null extractedData) then
        let extractedData := extractMicrodata html in
        if non_null extractedData then
          method ← assign_to_const "method" (Some "Microdata");
          Normal (extractedData, method)
        else Normal (extractedData, method)
      else Normal (extractedData, method)
      : completion (option (gmap string json) * option string));
  '(extractedData, method) ←
     (if negb (non_null extractedData) then
        let extractedData := extractWithRegex html in
        if non_null extractedData then
          method ← assign_to_const "method" (Some "Regex");
          Normal (extractedData, method)
        else Normal (extractedData, method)
      else Normal (extractedData, method)
      : completion (option (gmap string json) * option string));
  match extractedData with
  | Some data =>
      Normal (<["sourceUrl" := JStr url]>
              (<["method" := string_or_null method]> data))
  | None =>
      Normal (<["sourceUrl" := JStr url]> (<["method" := JStr "None"]> ∅))
  end.

End Extractor.

(** ** Venue analysis *)

Record AnalysisResult := {
  severity : Severity;
  missing : list string;
  hasContactInfo : bool
}.

Definition analyzeVenue (venue : Venue) : AnalysisResult :=
  let attrs := attributes venue in
  let missing :=
    flat_map (fun fieldDef : (VenueAttributes → option string) * string =>
                if isEmpty (fst fieldDef attrs) then [snd fieldDef] else [])
             REQUIRED_FIELDS in
  let hasPhone := negb (isEmpty (attr_phone attrs)) in
  let hasWebsite := negb (isEmpty (attr_url attrs)) in
  let hasContactInfo := hasPhone || hasWebsite in
  let severity :=
    if Nat.eqb (length missing) 0 then COMPLETE
    else if negb hasContactInfo then CRITICAL
    else if Nat.leb 2 (length missing) then MAJOR
    else MINOR in
  {| severity := severity; missing := missing; hasContactInfo := hasContactInfo |}.

(** The number of checked fields (name, phone, website) that are empty. *)
Definition empty_checked_fields (v : Venue) : nat :=
  Nat.b2n (isEmpty (attr_name (attributes v)))
  + Nat.b2n (isEmpty (attr_phone (attributes v)))
  + Nat.b2n (isEmpty (attr_url (attributes v))).

(** ** State *)

(** The location context [getVenueLocation] returns. *)
Record Location := {
  cityName : string;
  stateName : string;
  stateAbbr : string
}.

(** The object a scan stores per venue. *)
Record ScanEntry := {
  entry_venue : Venue;
  entry_severity : Severity;
  entry_missing : list string;
  entry_hasContactInfo : bool;
  entry_name : string;
  entry_categories : list string;
  entry_phone : string;
  entry_url : string;
  entry_address : string;
  entry_location : Location;
  entry_extracted : option (gmap string json)
}.

(** [venueData.extracted = value] *)
Definition set_extracted (value : gmap string json) (e : ScanEntry) : ScanEntry :=
  {| entry_venue := entry_venue e; entry_severity := entry_severity e;
     entry_missing := entry_missing e;
     entry_hasContactInfo := entry_hasContactInfo e;
     entry_name := entry_name e; entry_categories := entry_categories e;
     entry_phone := entry_phone e; entry_url := entry_url e;
     entry_address := entry_address e; entry_location := entry_location e;
     entry_extracted := Some value |}.

(** A request handed to [GM_xmlhttpRequest] and not yet answered, with the
    variables its handlers close over; [venueData] is the reference to the
    entry object that [extractVenueData] read from the map. *)
Inductive Request :=
| SearchRequest (query venueId : string) (venueData : nat)
| FetchRequest (websiteUrl query venueId : string) (venueData : nat).

(** [state], together with the heap of entry objects and the requests the
    host holds. *)
Record State := {
  heap : list ScanEntry;
  scannedVenues : gmap string nat;
  extractionInProgress : gset string;
  requests : list Request
}.

(** [state] as the script creates it. *)
Definition initial_state : State :=
  {| heap := []; scannedVenues := ∅; extractionInProgress := ∅; requests := [] |}.

Definition set_heap (h : list ScanEntry) (st : State) : State :=
  {| heap := h; scannedVenues := scannedVenues st;
     extractionInProgress := extractionInProgress st; requests := requests st |}.

Definition set_scannedVenues (m : gmap string nat) (st : State) : State :=
  {| heap := heap st; scannedVenues := m;
     extractionInProgress := extractionInProgress st; requests := requests st |}.

Definition set_extractionInProgress (s : gset string) (st : State) : State :=
  {| heap := heap st; scannedVenues := scannedVenues st;
     extractionInProgress := s; requests := requests st |}.

Definition set_requests (r : list Request) (st : State) : State :=
  {| heap := heap st; scannedVenues := scannedVenues st;
     extractionInProgress := extractionInProgress st; requests := r |}.

(** ** The host editor *)

Record City := {
  city_name : option string;
  city_stateID : option Z
}.

Record StateObject := {
  state_name : string;
  state_abbreviation : string
}.

(** [W.model], when the editor is ready.  [cities] is [None] when reading
    the loaded cities throws. *)
Record WazeModel := {
  venues : list (option Venue);
  cities : option (list City);
  states : gmap Z StateObject
}.

Definition no_location : Location :=
  {| cityName := ""; stateName := ""; stateAbbr := "" |}.

(** [getVenueLocation()] *)
Definition getVenueLocation (model : WazeModel) : Location :=
  match cities model with
  | None => no_location                                (* catch *)
  | Some [] => no_location
  | Some (city :: _) =>
      let cityName := JsString.or_default (city_name city) "" in
      let state :=
        match city_stateID city with
        | Some stateID => if Z.eqb stateID 0 then None else states model !! stateID
        | None => None
        end in
      {| cityName := cityName;
         stateName := match state with Some st => state_name st | None => "" end;
         stateAbbr := match state with Some st => state_abbreviation st | None => "" end |}
  end.

(** ** Venue scanning *)

(** [!venueName || venueName.trim() === ''] *)
Definition unnamed (venueName : option string) : bool :=
  match venueName with
  | None => true
  | Some s => negb (JsString.truthy s) || JsString.is_empty_string (JsString.trim s)
  end.

(** [categories.some(cat => EXCLUDED_CATEGORIES.includes(cat))] *)
Definition hasExcludedCategory (categories : list string) : bool :=
  existsb (fun cat => existsb (String.eqb cat) EXCLUDED_CATEGORIES) categories.

(** The object literal stored for a venue. *)
Definition new_entry (venue : Venue) (categories : list string)
    (location : Location) : ScanEntry :=
  let analysis := analyzeVenue venue in
  {| entry_venue := venue;
     entry_severity := severity analysis;
     entry_missing := missing analysis;
     entry_hasContactInfo := hasContactInfo analysis;
     entry_name := JsString.or_default (attr_name (attributes venue)) "Unnamed Venue";
     entry_categories := categories;
     entry_phone := JsString.or_default (attr_phone (attributes venue)) "";
     entry_url := JsString.or_default (attr_url (attributes venue)) "";
     entry_address := JsString.or_default (attr_streetName (attributes venue)) "";
     entry_location := location;
     entry_extracted := None |}.

(** The variables of the loop in [scanLoadedVenues]. *)
Record ScanLoop := {
  loop_state : State;
  scanned : nat;
  skipped : nat
}.

(** One iteration of [for (const venue of venues)]. *)
Definition scan_venue (location : Location) (acc : ScanLoop)
    (venue : option Venue) : ScanLoop :=
  match venue with
  | None => acc                                        (* !venue *)
  | Some venue =>
      if negb (String.eqb (venue_type venue) "venue") then acc
      else if unnamed (attr_name (attributes venue)) then
        {| loop_state := loop_state acc; scanned := scanned acc;
           skipped := S (skipped acc) |}
      else
        let categories := default [] (attr_categories (attributes venue)) in
        if hasExcludedCategory categories then
          {| loop_state := loop_state acc; scanned := scanned acc;
             skipped := S (skipped acc) |}
        else
          let st := loop_state acc in
          let ref := length (heap st) in
          let st := set_heap (heap st ++ [new_entry venue categories location]) st in
          let st := set_scannedVenues
                      (<[attr_id (attributes venue) := ref]> (scannedVenues st)) st in
          {| loop_state := st; scanned := S (scanned acc); skipped := skipped acc |}
  end.

(** What [scanLoadedVenues] writes to the console. *)
Inductive ConsoleLine :=
| ModelNotReady
| Scanned (scanned skipped : nat).

Record ScanOutcome := {
  after_scan : State;
  returned : nat;
  console : ConsoleLine
}.

(** [scanLoadedVenues()]; [W] is [None] when the model is not ready. *)
Definition scanLoadedVenues (W : option WazeModel) (st : State) : ScanOutcome :=
  match W with
  | None => {| after_scan := st; returned := 0; console := ModelNotReady |}
  | Some model =>
      let location := getVenueLocation model in
      let final :=
        fold_left (scan_venue location) (venues model)
                  {| loop_state := st; scanned := 0; skipped := 0 |} in
      {| after_scan := loop_state final; returned := scanned final;
         console := Scanned (scanned final) (skipped final) |}
  end.

(** [handleScanClick()] *)
Definition handleScanClick (W : option WazeModel) (st : State) : State :=
  let st := set_scannedVenues ∅ st in                  (* scannedVenues.clear() *)
  after_scan (scanLoadedVenues W st).

(** ** Data extraction *)

(** What the host reports for a request: exactly one of the three. *)
Inductive HostEvent :=
| Onload (responseText : string)
| Onerror
| Ontimeout.

Definition urlRegex : regexp :=
  {| pattern :=
       seq [ lit "<a"; Star (NoneOf [">"]%char); lit "href="; One quote;
             lit "/url?q="; Group 1 (plus (NoneOf ["034"; "'"; "&"]%char));
             One (OneOf ["&"; "034"; "'"]%char) ];
     ignoreCase := true; global := false |}.

Section Orchestrator.

Variable JSON_parse : string → option json.

(** [decodeURIComponent]: [None] when it throws a URIError. *)
Variable decodeURIComponent : string → option string.

(** The arguments [(error, url)] with which [googleSearch] calls back on a
    host event; [None] when no handler is registered for the event. *)
Definition googleSearch_callback (ev : HostEvent)
    : option (option js_error * option string) :=
  match ev with
  | Onload html =>
      let attempt : completion (option js_error * option string) :=
        match String_match html urlRegex with
        | Some m =>
            match group 1 m with
            | Some g =>
                if JsString.truthy g then
                  match decodeURIComponent g with
                  | Some resultUrl => Normal (None, Some resultUrl)
                  | None => Throw URIError
                  end
                else Normal (Some (Error "No results"), None)
            | None => Normal (Some (Error "No results"), None)
            end
        | None => Normal (Some (Error "No results"), None)
        end in
      match attempt with
      | Normal args => Some args
      | Throw error => Some (Some error, None)          (* catch *)
      end
  | Onerror => Some (Some RequestFailed, None)
  | Ontimeout => None                     (* the options have no ontimeout *)
  end.

(** The arguments [(error, data)] with which [scrapeWebsite] calls back. *)
Definition scrapeWebsite_callback (url : string) (ev : HostEvent)
    : option js_error * option (gmap string json) :=
  match ev with
  | Onload html =>
      match scrape_response JSON_parse url html with
      | Normal data => (None, Some data)
      | Throw error => (Some error, None)               (* catch *)
      end
  | Onerror => (Some RequestFailed, None)
  | Ontimeout => (Some (Error "Timeout"), None)
  end.

Definition store_extracted (venueData : nat) (value : gmap string json)
    (st : State) : State :=
  set_heap (alter (set_extracted value) venueData (heap st)) st.

Definition finish (venueId : string) (st : State) : State :=
  set_extractionInProgress (extractionInProgress st ∖ {[venueId]}) st.

(** The callback [extractVenueData] passes to [scrapeWebsite]. *)
Definition on_scrape (websiteUrl query venueId : string) (venueData : nat)
    (args : option js_error * option (gmap string json)) (st : State) : State :=
  let '(scrapeError, extractedData) := args in
  let st :=
    if non_null scrapeError then
      store_extracted venueData
        (<["error" := JStr "Failed to fetch website"]>
         (<["searchQuery" := JStr query]>
          (<["websiteUrl" := JStr websiteUrl]> ∅))) st
    else
      store_extracted venueData
        (<["searchQuery" := JStr query]> (default ∅ extractedData)) st in
  finish venueId st.

(** The callback [extractVenueData] passes to [googleSearch]. *)
Definition on_search (query venueId : string) (venueData : nat)
    (args : option js_error * option string) (st : State) : State :=
  let '(searchError, websiteUrl) := args in
  if non_null searchError || negb (JsString.truthy (default "" websiteUrl)) then
    let st :=
      store_extracted venueData
        (<["error" := JStr "No search results found"]>
         (<["searchQuery" := JStr query]> ∅)) st in
    finish venueId st
  else
    (* scrapeWebsite(websiteUrl, ..) *)
    set_requests
      (requests st ++ [FetchRequest (default "" websiteUrl) query venueId venueData])
      st.

(** [extractVenueData(venueId)] up to its return: the request is handed
    to the host, nothing has been answered yet. *)
Definition extractVenueData (venueId : string) (st : State) : State :=
  match scannedVenues st !! venueId with
  | None => st                                       (* venue not found *)
  | Some ref =>
      match heap st !! ref with
      | None => st
      | Some venueData =>
          if decide (venueId ∈ extractionInProgress st) then st
          else
            let st := set_extractionInProgress
                        ({[venueId]} ∪ extractionInProgress st) st in
            let query :=
              buildSearchQuery (entry_name venueData) (entry_categories venueData)
                (cityName (entry_location venueData))
                (stateAbbr (entry_location venueData)) in
            (* googleSearch(query, ..) *)
            set_requests (requests st ++ [SearchRequest query venueId ref]) st
      end
  end.

(** The host answers the [i]-th pending request with [ev]: the request
    is done and the handler registered for [ev], if any, runs. *)
Definition deliver (i : nat) (ev : HostEvent) (st : State) : State :=
  match requests st !! i with
  | None => st
  | Some request =>
      let st := set_requests (delete i (requests st)) st in
      match request with
      | SearchRequest query venueId venueData =>
          match googleSearch_callback ev with
          | Some args => on_search query venueId venueData args st
          | None => st
          end
      | FetchRequest websiteUrl query venueId venueData =>
          on_scrape websiteUrl query venueId venueData
            (scrapeWebsite_callback websiteUrl ev) st
      end
  end.

End Orchestrator.

(** ** A run of the script *)

(** The identity a pending request works for. *)
Definition request_id (r : Request) : string :=
  match r with
  | SearchRequest _ venueId _ => venueId
  | FetchRequest _ _ venueId _ => venueId
  end.

(** Every identity marked in flight has a pending request that will clear
    the marker when the host answers it. *)
Definition markers_owned (st : State) : Prop :=
  ∀ id, id ∈ extractionInProgress st →
        ∃ i r, requests st !! i = Some r ∧ request_id r = id.

(** What can happen to the script: the user clicks the scan button or the
    extract button of a venue, or the host answers a pending request. *)
Inductive Action :=
| ScanClick (W : option WazeModel)
| ExtractClick (venueId : string)
| Answer (i : nat) (ev : HostEvent).


Section Runs.

Variable JSON_parse : string → option json.
Variable decodeURIComponent : string → option string.

Definition perform (a : Action) (st : State) : State :=
  match a with
  | ScanClick W => handleScanClick W st
  | ExtractClick venueId => extractVenueData venueId st
  | Answer i ev => deliver JSON_parse decodeURIComponent i ev st
  end.


End Runs.

(** ** A host for the sample runs

    Two functions that stand in for the host builtins where the definitions
    are run on concrete pages; the theorems about the extractor and the
    orchestrator hold for every [JSON_parse] and [decodeURIComponent].
    They agree with the builtins on the texts of the sample runs and are
    not the builtins elsewhere:
    - [JSON_parse] reads the JSON grammar but gives [None] for a [\u] escape
      from 256 on, which the builtin accepts (a string here has code units
      below 256 only), and it keeps a number as the exact rational of its
      literal, where the builtin rounds to a double (the literal [1e-400]
      is not zero here and is zero there);
    - [decodeURIComponent] decodes escapes below 128 and gives [None] for
      the others, where the builtin decodes well-formed UTF-8 sequences. *)

Module ReferenceHost.

Definition is_json_space (c : ascii) : bool :=
  let n := nat_of_ascii c in
  Nat.eqb n 32 || Nat.eqb n 9 || Nat.eqb n 10 || Nat.eqb n 13.

Fixpoint skip_space (s : string) : string :=
  match s with
  | String c s' => if is_json_space c then skip_space s' else s
  | EmptyString => s
  end.

Definition hex_digit (c : ascii) : option nat :=
  let n := nat_of_ascii c in
  if Nat.leb 48 n && Nat.leb n 57 then Some (n - 48)
  else if Nat.leb 65 n && Nat.leb n 70 then Some (n - 55)
  else if Nat.leb 97 n && Nat.leb n 102 then Some (n - 87)
  else None.

Definition simple_escape (c : ascii) : option ascii :=
  match c with
  | "034"%char => Some "034"%char
  | "\"%char => Some "\"%char
  | "/"%char => Some "/"%char
  | "b"%char => Some (ascii_of_nat 8)
  | "f"%char => Some (ascii_of_nat 12)
  | "n"%char => Some (ascii_of_nat 10)
  | "r"%char => Some (ascii_of_nat 13)
  | "t"%char => Some (ascii_of_nat 9)
  | _ => None
  end.

(** The characters of a string literal after its opening quote. *)
Fixpoint read_string (s : string) : option (string * string) :=
  match s with
  | EmptyString => None
  | String c s' =>
      if Ascii.eqb c "034" then Some ("", s')
      else if Ascii.eqb c "\" then
        match s' with
        | String "u" (String "0" (String "0" (String h1 (String h2 s'')))) =>
            a ← hex_digit h1; b ← hex_digit h2;
            '(t, r) ← read_string s'';
            Some (String (ascii_of_nat (16 * a + b)) t, r)
        | String e s'' =>
            x ← simple_escape e;
            '(t, r) ← read_string s'';
            Some (String x t, r)
        | EmptyString => None
        end
      else if Nat.ltb (nat_of_ascii c) 32 then None
      else '(t, r) ← read_string s'; Some (String c t, r)
  end.

(** Decimal digits: their value, their number and the rest. *)
Fixpoint read_digits (s : string) (acc : Z) (n : nat) : Z * nat * string :=
  match s with
  | String c s' =>
      if Regex.is_digit c
      then read_digits s' (10 * acc + Z.of_nat (nat_of_ascii c - 48))%Z (S n)
      else (acc, n, s)
  | EmptyString => (acc, n, s)
  end.

Definition scale (m e : Z) : Q :=
  if (0 <=? e)%Z then Qmake (m * 10 ^ e) 1
  else Qmake m (Z.to_pos (10 ^ (- e))).

Definition read_number (s : string) : option (Q * string) :=
  let '(negative, s) :=
    match s with String "-" s' => (true, s') | _ => (false, s) end in
  let '(int, n, s1) := read_digits s 0%Z 0 in
  if Nat.eqb n 0 then None
  else if Nat.ltb 1 n && Nat.eqb (nat_of_ascii (default "0"%char (Regex.head_char s))) 48
  then None
  else
    '(mantissa, fraction_digits, s2) ←
      match s1 with
      | String "." s' =>
          let '(m, k, r) := read_digits s' int 0 in
          if Nat.eqb k 0 then None else Some (m, k, r)
      | _ => Some (int, 0, s1)
      end;
    '(exponent, s3) ←
      match s2 with
      | String c s' =>
          if Ascii.eqb c "e" || Ascii.eqb c "E" then
            let '(minus, s'') :=
              match s' with
              | String "-" r => (true, r)
              | String "+" r => (false, r)
              | _ => (false, s')
              end in
            let '(e, k, r) := read_digits s'' 0%Z 0 in
            if Nat.eqb k 0 then None
            else Some (if minus then (- e)%Z else e, r)
          else Some (0%Z, s2)
      | EmptyString => Some (0%Z, s2)
      end;
    let m := if negative then (- mantissa)%Z else mantissa in
    Some (scale m (exponent - Z.of_nat fraction_digits), s3).

Definition read_literal (word : string) (v : json) (s : string)
    : option (json * string) :=
  if String.prefix word s then Some (v, Regex.drop (String.length word) s)
  else None.

Fixpoint read_value (fuel : nat) (s : string) : option (json * string) :=
  match fuel with
  | 0 => None
  | S fuel' =>
      match skip_space s with
      | String "{" r =>
          match skip_space r with
          | String "}" r' => Some (JObj [], r')
          | r' => '(ms, r'') ← read_members fuel' r'; Some (JObj ms, r'')
          end
      | String "[" r =>
          match skip_space r with
          | String "]" r' => Some (JArr [], r')
          | r' => '(vs, r'') ← read_elements fuel' r'; Some (JArr vs, r'')
          end
      | String "034" r => '(t, r') ← read_string r; Some (JStr t, r')
      | String "t" _ as r => read_literal "true" (JBool true) r
      | String "f" _ as r => read_literal "false" (JBool false) r
      | String "n" _ as r => read_literal "null" JNull r
      | r => '(q, r') ← read_number r; Some (JNum q, r')
      end
  end
with read_elements (fuel : nat) (s : string) : option (list json * string) :=
  match fuel with
  | 0 => None
  | S fuel' =>
      '(v, r) ← read_value fuel' s;
      match skip_space r with
      | String "," r' => '(vs, r'') ← read_elements fuel' r'; Some (v :: vs, r'')
      | String "]" r' => Some ([v], r')
      | _ => None
      end
  end
with read_members (fuel : nat) (s : string)
    : option (list (string * json) * string) :=
  match fuel with
  | 0 => None
  | S fuel' =>
      match skip_space s with
      | String "034" r =>
          '(key, r1) ← read_string r;
          match skip_space r1 with
          | String ":" r2 =>
              '(v, r3) ← read_value fuel' r2;
              match skip_space r3 with
              | String "," r4 =>
                  '(ms, r5) ← read_members fuel' r4; Some ((key, v) :: ms, r5)
              | String "}" r4 => Some ([(key, v)], r4)
              | _ => None
              end
          | _ => None
          end
      | _ => None
      end
  end.

Definition JSON_parse (text : string) : option json :=
  '(v, r) ← read_value (S (String.length text)) text;
  match skip_space r with
  | EmptyString => Some v
  | _ => None
  end.

Fixpoint decodeURIComponent (s : string) : option string :=
  match s with
  | EmptyString => Some ""
  | String "%" (String h1 (String h2 s')) =>
      a ← hex_digit h1; b ← hex_digit h2;
      if Nat.leb 8 a then None
      else t ← decodeURIComponent s'; Some (String (ascii_of_nat (16 * a + b)) t)
  | String "%" _ => None
  | String c s' => t ← decodeURIComponent s'; Some (String c t)
  end.

End ReferenceHost.

(** ** The specification's wording

    Definitions that follow the words of the specification, to compare
    with the definitions above. *)





(** A venue is excluded when it is not a business-venue record, or its
    name is empty after trimming, or one of its category tags is on the
    exclusion list. *)
Definition empty_after_trim (name : option string) : Prop :=
  match name with
  | None => True
  | Some s => JsString.trim s = ""
  end.

Definition excluded (venue : option Venue) : Prop :=
  match venue with
  | None => True
  | Some v =>
      venue_type v ≠ "venue"
      ∨ empty_after_trim (attr_name (attributes v))
      ∨ ∃ cat, cat ∈ default [] (attr_categories (attributes v))
               ∧ cat ∈ EXCLUDED_CATEGORIES
  end.

(** A declared type qualifies when it contains one of the four names. *)
Definition business_type_name (t : string) : bool :=
  Js.string_includes t "LocalBusiness" || Js.string_includes t "Restaurant"
  || Js.string_includes t "Organization" || Js.string_includes t "Store".

(** The fields mapped from a qualifying item: phone, url, the nested
    street address and name, each [null] when absent or falsy. *)
Definition mapped_fields (item : list (string * json)) : gmap string json :=
  <["phone" := Js.or_null (Js.own_property "telephone" item)]>
  (<["website" := Js.or_null (Js.own_property "url" item)]>
   (<["address" := Js.or_null (Js.get_optional (Js.own_property "address" item)
                                                "streetAddress")]>
    (<["name" := Js.or_null (Js.own_property "name" item)]> ∅))).

(** The search yields no result URL: the response has no result link, or
    the text of its first result link does not decode to a URL (the
    decoding throws, or gives the empty string).  Or the search request
    fails: the host reports an error. *)
Inductive search_fails (decodeURIComponent : string → option string)
    : HostEvent → Prop :=
| no_result_link html :
    String_match html urlRegex = None →
    search_fails decodeURIComponent (Onload html)
| no_result_url html m g :
    String_match html urlRegex = Some m → group 1 m = Some g →
    decodeURIComponent g = None ∨ decodeURIComponent g = Some "" →
    search_fails decodeURIComponent (Onload html)
| request_failed : search_fails decodeURIComponent Onerror.

(** The extraction result stored for a venue identity: that of the entry
    the result set holds for it.  [Some None] is an entry whose result is
    [null]. *)
Definition stored_result (st : State) (id : string)
    : option (option (gmap string json)) :=
  match scannedVenues st !! id with
  | Some ref => entry_extracted <$> heap st !! ref
  | None => None
  end.

(** ** Quantities of a scan *)

(** The venue reaches the statements that analyze and store it. *)
Definition eligible (venue : option Venue) : bool :=
  match venue with
  | None => false
  | Some v =>
      String.eqb (venue_type v) "venue"
      && negb (unnamed (attr_name (attributes v)))
      && negb (hasExcludedCategory (default [] (attr_categories (attributes v))))
  end.

(** The venue reaches one of the two [skipped++]. *)
Definition counted_skipped (venue : option Venue) : bool :=
  match venue with
  | None => false
  | Some v =>
      String.eqb (venue_type v) "venue"
      && (unnamed (attr_name (attributes v))
          || hasExcludedCategory (default [] (attr_categories (attributes v))))
  end.

Definition stored (vs : list (option Venue)) : list Venue :=
  omap (λ venue, if eligible venue then venue else None) vs.

Definition eligible_venues (W : option WazeModel) : list Venue :=
  match W with
  | Some model => stored (venues model)
  | None => []
  end.

Definition location_of (W : option WazeModel) : Location :=
  match W with
  | Some model => getVenueLocation model
  | None => no_location
  end.

Definition entry_for (location : Location) (v : Venue) : ScanEntry :=
  new_entry v (default [] (attr_categories (attributes v))) location.

(** [scannedVenues.set(id, ..)] for the venues of [l] in order, the first
    of them stored at reference [ref], the next at [ref + 1], and so on. *)
Fixpoint insert_all (ref : nat) (l : list Venue) (m : gmap string nat)
    : gmap string nat :=
  match l with
  | [] => m
  | v :: l' => insert_all (S ref) l' (<[attr_id (attributes v) := ref]> m)
  end.

(** The query [extractVenueData] builds for an entry. *)
Definition search_query (e : ScanEntry) : string :=
  buildSearchQuery (entry_name e) (entry_categories e)
    (cityName (entry_location e)) (stateAbbr (entry_location e)).

(** The object stored when the search gave no URL. *)
Definition no_results_record (query : string) : gmap string json :=
  <["error" := JStr "No search results found"]>
  (<["searchQuery" := JStr query]> ∅).

(** ** Sample inputs *)

(** The model of an editor with the given venues and no city loaded. *)
Definition model_of (vs : list (option Venue)) : option WazeModel :=
  Some {| venues := vs; cities := Some []; states := ∅ |}.

(** A venue whose name is blank. *)
Definition unnamed_venue : Venue :=
  {| venue_type := "venue";
     attributes := {| attr_id := "1"; attr_name := Some "  "; attr_phone := None;
                      attr_url := None; attr_streetName := None;
                      attr_categories := None |} |}.

(** [text] with every backquote replaced by a double quote. *)
Fixpoint quoted (text : string) : string :=
  match text with
  | String c text' =>
      String (if Ascii.eqb c "`" then "034"%char else c) (quoted text')
  | EmptyString => EmptyString
  end.

(** The text of a well-formed script block. *)
Definition good_block : string :=
  quoted ("{`@type`:`FastFoodRestaurant`,`telephone`:`303-555-0100`,"
          +:+ "`url`:`https://joes.example`,"
          +:+ "`address`:{`streetAddress`:`1 Main St`},`name`:`Joe's`}").

(** A page with a malformed script block before a well-formed one. *)
Definition page_bad_then_good : string :=
  "<html><head><script type='application/ld+json'>{bad</script>"
  +:+ "<script type='application/ld+json'>" +:+ good_block
  +:+ "</script></head><body>call 720-555-0199</body></html>".

(** The members of its well-formed block. *)
Definition good_item : list (string * json) :=
  [ ("@type", JStr "FastFoodRestaurant"); ("telephone", JStr "303-555-0100");
    ("url", JStr "https://joes.example");
    ("address", JObj [("streetAddress", JStr "1 Main St")]);
    ("name", JStr "Joe's") ].

(** A page with no script block and one metadata tag. *)
Definition page_metadata_only : string :=
  "<html><head><meta property='og:url' content='https://joes.example/'>"
  +:+ "</head><body>Joe's Cafe</body></html>".

(** A page with nothing but a phone number in its text. *)
Definition page_phone_only : string :=
  "<html><body>Call 303-555-0100 today</body></html>".

(** A venue with a name and a category, no phone and no website. *)
Definition joes_cafe : Venue :=
  {| venue_type := "venue";
     attributes := {| attr_id := "v1"; attr_name := Some "Joe's Cafe";
                      attr_phone := Some ""; attr_url := Some "";
                      attr_streetName := None;
                      attr_categories := Some ["CAFE"] |} |}.

(** An editor showing Denver, Colorado, with that venue loaded. *)
Definition denver : option WazeModel :=
  Some {| venues := [Some joes_cafe];
          cities := Some [ {| city_name := Some "Denver"; city_stateID := Some 8%Z |} ];
          states := {[ 8%Z := {| state_name := "Colorado";
                                 state_abbreviation := "CO" |} ]} |}.

(** The state after a scan of [denver]. *)
Definition denver_scanned : State := handleScanClick denver initial_state.

(** A page of search results whose first link is a result URL. *)
Definition search_page : string :=
  "<div><a class='r' href='/url?q=https://joes.example/&amp;sa=U'>Joe's Cafe</a></div>".

(** A page of search results with no result link. *)
Definition no_results_page : string := "<html><body>No results</body></html>".

(** A venue with name, phone and website. *)
Definition complete_venue : Venue :=
  {| venue_type := "venue";
     attributes := {| attr_id := "v2"; attr_name := Some "Acme Hotel";
                      attr_phone := Some "303-555-0111";
                      attr_url := Some "https://acme.example";
                      attr_streetName := Some "2 Main St";
                      attr_categories := Some ["HOTEL"] |} |}.

(** A venue with name and phone, no website. *)
Definition acme_garage : Venue :=
  {| venue_type := "venue";
     attributes := {| attr_id := "v3"; attr_name := Some "Acme Garage";
                      attr_phone := Some "555-1234"; attr_url := Some "";
                      attr_streetName := None; attr_categories := Some [] |} |}.

(** A venue with a website, no name and no phone. *)
Definition nameless_venue : Venue :=
  {| venue_type := "venue";
     attributes := {| attr_id := "v4"; attr_name := None;
                      attr_phone := None; attr_url := Some "https://who.example";
                      attr_streetName := None; attr_categories := None |} |}.

(** The object stored when the page fetch failed. *)
Definition failed_fetch_record (query websiteUrl : string) : gmap string json :=
  <["error" := JStr "Failed to fetch website"]>
  (<["searchQuery" := JStr query]> (<["websiteUrl" := JStr websiteUrl]> ∅)).

(** The state after an extraction for [joes_cafe] whose search found a
    URL and whose page fetch timed out. *)
Definition denver_after_fetch_timeout : State :=
  deliver ReferenceHost.JSON_parse ReferenceHost.decodeURIComponent 0 Ontimeout
    (deliver ReferenceHost.JSON_parse ReferenceHost.decodeURIComponent 0
       (Onload search_page) (extractVenueData "v1" denver_scanned)).

(** ** The texts a pattern takes

    What a match of a pattern can consist of, apart from the conditions a
    pattern puts on the text around it ([\b]). *)

Module RegexLang.

Import Regex.

Fixpoint all_chars (p : ascii → bool) (w : string) : bool :=
  match w with
  | String x w' => p x && all_chars p w'
  | EmptyString => true
  end.

Fixpoint count_chars (p : ascii → bool) (w : string) : nat :=
  match w with
  | String x w' => (if p x then 1 else 0) + count_chars p w'
  | EmptyString => 0
  end.

Fixpoint lang (ic : bool) (r : regex) (w : string) : Prop :=
  match r with
  | Eps | WordBoundary => w = ""
  | One c => ∃ x, w = String x "" ∧ cmatch ic c x = true
  | Seq r1 r2 => ∃ w1 w2, w = w1 +:+ w2 ∧ lang ic r1 w1 ∧ lang ic r2 w2
  | Opt r1 => w = "" ∨ lang ic r1 w
  | Star c | StarLazy c => all_chars (cmatch ic c) w = true
  | Group _ r1 => lang ic r1 w
  end.

(** Every capturing group of the pattern takes texts that are [good] for
    its number. *)
Fixpoint groups_good (ic : bool) (good : nat → string → Prop) (r : regex) : Prop :=
  match r with
  | Group i r1 => (∀ w, lang ic r1 w → good i w) ∧ groups_good ic good r1
  | Seq r1 r2 => groups_good ic good r1 ∧ groups_good ic good r2
  | Opt r1 => groups_good ic good r1
  | _ => True
  end.

Definition caps_good (good : nat → string → Prop) (cs : list (nat * string)) : Prop :=
  ∀ i g, (i, g) ∈ cs → good i g.

(** The 256 characters. *)
Definition all_ascii : list ascii := map ascii_of_nat (List.seq 0 256).

(** Every character of the class satisfies [p]. *)
Definition class_within (ic : bool) (c : cclass) (p : ascii → bool) : bool :=
  forallb (λ x, implb (cmatch ic c x) (p x)) all_ascii.

(** Every character of a text the pattern takes satisfies [p]. *)
Fixpoint chars_within (ic : bool) (p : ascii → bool) (r : regex) : bool :=
  match r with
  | Eps | WordBoundary => true
  | One c | Star c | StarLazy c => class_within ic c p
  | Seq r1 r2 => chars_within ic p r1 && chars_within ic p r2
  | Opt r1 | Group _ r1 => chars_within ic p r1
  end.

(** A lower bound on the number of characters satisfying [p] in a text the
    pattern takes. *)
Fixpoint min_count (ic : bool) (p : ascii → bool) (r : regex) : nat :=
  match r with
  | One c => if class_within ic c p then 1 else 0
  | Seq r1 r2 => min_count ic p r1 + min_count ic p r2
  | Group _ r1 => min_count ic p r1
  | _ => 0
  end.

(** An upper bound on that number, when the pattern gives one. *)
Fixpoint max_count (ic : bool) (p : ascii → bool) (r : regex) : option nat :=
  match r with
  | Eps | WordBoundary => Some 0
  | One c => if class_within ic c (λ x, negb (p x)) then Some 0 else Some 1
  | Seq r1 r2 =>
      match max_count ic p r1, max_count ic p r2 with
      | Some a, Some b => Some (a + b)
      | _, _ => None
      end
  | Opt r1 | Group _ r1 => max_count ic p r1
  | Star c | StarLazy c =>
      if class_within ic c (λ x, negb (p x)) then Some 0 else None
  end.

(** The continuation [k] yields [res] on a state that lies the text [w]
    after the state at index [i] with input [s] and captures [cs]. *)
Definition takes (res : mstate) (good : nat → string → Prop)
    (k : mstate → option mstate) (i : nat) (s : string)
    (cs : list (nat * string)) (w : string) (st' : mstate) : Prop :=
  k st' = Some res ∧ s = w +:+ rest st' ∧ pos st' = i + String.length w
  ∧ (caps_good good cs → caps_good good (caps st')).

End RegexLang.

(** ** Shapes of what the extractors return *)

(** The characters of a phone number as [phoneRegex] takes it. *)
Definition phone_char (x : ascii) : bool :=
  Regex.is_digit x
  || existsb (Ascii.eqb x) ["+"; "-"; "."; "("; ")"]%char.

(** No quote character. *)
Definition not_quote (x : ascii) : bool :=
  negb (existsb (Ascii.eqb x) ["034"; "'"]%char).

(** No quote character and no ampersand. *)
Definition not_quote_amp (x : ascii) : bool :=
  negb (existsb (Ascii.eqb x) ["034"; "'"; "&"]%char).

(** A field of an extraction result: [null], or a string that is not empty
    and whose characters satisfy [p]. *)
Definition null_or_text (p : ascii → bool) (v : json) : Prop :=
  v = JNull
  ∨ ∃ g, v = JStr g ∧ g ≠ "" ∧ RegexLang.all_chars p g = true.


(** The four names [extractSchemaOrg] looks for in a declared type. *)
Definition business_names : list string :=
  ["LocalBusiness"; "Restaurant"; "Organization"; "Store"].

(** A declared type qualifies: a string that contains one of the names, or
    an array with one of the names as an element. *)
Definition qualifying_type (t : json) : Prop :=
  match t with
  | JStr s => ∃ n, n ∈ business_names ∧ Js.string_includes s n = true
  | JArr l => ∃ n, n ∈ business_names ∧ JStr n ∈ l
  | _ => False
  end.

(** A declared type on which [type.includes] is not callable: a truthy
    number, [true] or an object. *)
Definition uncallable_type (t : json) : Prop :=
  match t with
  | JNum q => ¬ (q == 0)%Q
  | JBool b => b = true
  | JObj _ => True
  | _ => False
  end.

(** The items the loop of [extractSchemaOrg] visits for parsed data. *)
Definition items_of (data : json) : list json :=
  match data with JArr l => l | _ => [data] end.

(** The keys of the object [extractSchemaOrg] returns. *)
Definition schema_keys : list string := ["phone"; "website"; "address"; "name"].

(** An item the loop of [extractSchemaOrg] passes over: its declared type
    is read without an exception and does not qualify. *)
Definition passed_over (item : json) : Prop :=
  ∃ type, Js.get item "@type" = Normal type ∧ is_business_type type = Normal false.

(** An item at which the loop throws: [null], or an item whose declared
    type is truthy and neither string nor array. *)
Definition throwing_item (item : json) : Prop :=
  item = JNull
  ∨ ∃ props t, item = JObj props ∧ Js.own_property "@type" props = Some t
               ∧ uncallable_type t.

(** The members of a restaurant item. *)
Definition restaurant_item : list (string * json) :=
  [("@type", JStr "Restaurant"); ("telephone", JStr "303-555-0100")].

(** A page whose only script block is an array: a person, [null], then a
    restaurant. *)
Definition page_null_then_restaurant : string :=
  "<script type='application/ld+json'>"
  +:+ quoted ("[{`@type`:`Person`},null,"
              +:+ "{`@type`:`Restaurant`,`telephone`:`303-555-0100`}]")
  +:+ "</script>".

(** The same page without the person and the [null]. *)
Definition page_restaurant : string :=
  "<script type='application/ld+json'>"
  +:+ quoted "[{`@type`:`Restaurant`,`telephone`:`303-555-0100`}]"
  +:+ "</script>".

(** ** Presentation of a severity *)

(** [getSeverityLabel(severity)]: a [switch] on the number. *)
Definition getSeverityLabel (severity : nat) : string :=
  if Nat.eqb severity (severity_value COMPLETE) then "Complete"
  else if Nat.eqb severity (severity_value MINOR) then "Minor Issues"
  else if Nat.eqb severity (severity_value MAJOR) then "Major Issues"
  else if Nat.eqb severity (severity_value CRITICAL) then "Critical"
  else "Unknown".

(** [getSeverityColor(severity)] *)
Definition getSeverityColor (severity : nat) : string :=
  if Nat.eqb severity (severity_value COMPLETE) then "#4CAF50"
  else if Nat.eqb severity (severity_value MINOR) then "#FFC107"
  else if Nat.eqb severity (severity_value MAJOR) then "#FF5722"
  else if Nat.eqb severity (severity_value CRITICAL) then "#B71C1C"
  else "#9E9E9E".

(** ** Statistics *)

Record Statistics := {
  stats_total : nat;
  stats_complete : nat;
  stats_minor : nat;
  stats_major : nat;
  stats_critical : nat
}.

(** The [switch] in the loop of [getStatistics]. *)
Definition count_severity (severity : Severity) (stats : Statistics) : Statistics :=
  match severity with
  | COMPLETE =>
      {| stats_total := stats_total stats; stats_complete := S (stats_complete stats);
         stats_minor := stats_minor stats; stats_major := stats_major stats;
         stats_critical := stats_critical stats |}
  | MINOR =>
      {| stats_total := stats_total stats; stats_complete := stats_complete stats;
         stats_minor := S (stats_minor stats); stats_major := stats_major stats;
         stats_critical := stats_critical stats |}
  | MAJOR =>
      {| stats_total := stats_total stats; stats_complete := stats_complete stats;
         stats_minor := stats_minor stats; stats_major := S (stats_major stats);
         stats_critical := stats_critical stats |}
  | CRITICAL =>
      {| stats_total := stats_total stats; stats_complete := stats_complete stats;
         stats_minor := stats_minor stats; stats_major := stats_major stats;
         stats_critical := S (stats_critical stats) |}
  end.

(** [getStatistics()].  The loop visits the entries of [state.scannedVenues]
    in insertion order; a step only increments one of four counters, so the
    statistics are the same in the order in which the finite map is folded.
    A reference of the map that is not in the heap stands for no object. *)
Definition getStatistics (st : State) : Statistics :=
  map_fold
    (λ (_ : string) (ref : nat) (stats : Statistics),
       match heap st !! ref with
       | Some data => count_severity (entry_severity data) stats
       | None => stats
       end)
    {| stats_total := size (scannedVenues st); stats_complete := 0;
       stats_minor := 0; stats_major := 0; stats_critical := 0 |}
    (scannedVenues st).

(** ** More quantities of a scan *)

(** The record passes the first test of the loop: it is a venue. *)
Definition venue_record (venue : option Venue) : bool :=
  match venue with
  | Some v => String.eqb (venue_type v) "venue"
  | None => false
  end.

(** The entry object a pending request holds. *)
Definition request_ref (r : Request) : nat :=
  match r with
  | SearchRequest _ _ venueData => venueData
  | FetchRequest _ _ _ venueData => venueData
  end.

(** The query a pending request was made for. *)
Definition request_query (r : Request) : string :=
  match r with
  | SearchRequest query _ _ => query
  | FetchRequest _ query _ _ => query
  end.

(** The editor shows a first city with a name, in a state that the model
    knows and that has an abbreviation. *)
Definition located (model : WazeModel) : Prop :=
  ∃ city others name stateID state,
    cities model = Some (city :: others)
    ∧ city_name city = Some name ∧ name ≠ ""
    ∧ city_stateID city = Some stateID ∧ stateID ≠ 0%Z
    ∧ states model !! stateID = Some state
    ∧ state_abbreviation state ≠ "".

(** The model with the first loaded city only. *)
Definition first_city_only (model : WazeModel) : WazeModel :=
  {| venues := venues model;
     cities := match cities model with
               | Some (city :: _) => Some [city]
               | other => other
               end;
     states := states model |}.

(** ** Every run of the script *)

(** An entry with its [extracted] field as a scan leaves it. *)
Definition clear_extracted (e : ScanEntry) : ScanEntry :=
  {| entry_venue := entry_venue e; entry_severity := entry_severity e;
     entry_missing := entry_missing e;
     entry_hasContactInfo := entry_hasContactInfo e;
     entry_name := entry_name e; entry_categories := entry_categories e;
     entry_phone := entry_phone e; entry_url := entry_url e;
     entry_address := entry_address e; entry_location := entry_location e;
     entry_extracted := None |}.

(** The object stored when a page was fetched and processed: the object
    of [scrapeWebsite] with the query added. *)
Definition scraped_record (query websiteUrl method : string)
    (data : gmap string json) : gmap string json :=
  <["searchQuery" := JStr query]>
  (<["sourceUrl" := JStr websiteUrl]> (<["method" := JStr method]> data)).

(** The forms of an extraction result for a query. *)
Inductive extraction_record (query : string) : gmap string json → Prop :=
| record_no_results :
    extraction_record query (no_results_record query)
| record_failed_fetch websiteUrl :
    extraction_record query (failed_fetch_record query websiteUrl)
| record_schema websiteUrl item :
    extraction_record query
      (scraped_record query websiteUrl "Schema.org" (mapped_fields item))
| record_nothing websiteUrl :
    extraction_record query (scraped_record query websiteUrl "None" ∅).

(** What holds of the state, the heap and the pending requests together. *)
Record consistent (st : State) : Prop := {
  refs_valid :
    ∀ id ref, scannedVenues st !! id = Some ref →
      ∃ e, heap st !! ref = Some e ∧ attr_id (attributes (entry_venue e)) = id;
  entries_scanned :
    ∀ ref e, heap st !! ref = Some e →
      eligible (Some (entry_venue e)) = true
      ∧ ∃ location, clear_extracted e = entry_for location (entry_venue e);
  entries_extracted :
    ∀ ref e record, heap st !! ref = Some e → entry_extracted e = Some record →
      extraction_record (search_query e) record;
  requests_marked :
    ∀ r, r ∈ requests st → request_id r ∈ extractionInProgress st;
  requests_exclusive : NoDup (request_id <$> requests st);
  requests_bound :
    ∀ r, r ∈ requests st →
      ∃ e, heap st !! request_ref r = Some e ∧ request_query r = search_query e
}.

Section AnyRun.

Variable JSON_parse : string → option json.
Variable decodeURIComponent : string → option string.

(** The states the script reaches, whatever the user and the host do. *)
Inductive reached : State → Prop :=
| reached_initial : reached initial_state
| reached_perform st a :
    reached st → reached (perform JSON_parse decodeURIComponent a st).

End AnyRun.

(** The state after the extract button of [joes_cafe] was clicked: its
    search request is pending. *)
Definition denver_searching : State := extractVenueData "v1" denver_scanned.

(** The state after the search for [joes_cafe] found a URL: the page
    request is pending. *)
Definition denver_fetching : State :=
  deliver ReferenceHost.JSON_parse ReferenceHost.decodeURIComponent 0
    (Onload search_page) denver_searching.


(** * Properties *)

(** A decidable proposition about closed terms, by evaluation. *)
Ltac by_decide :=
  match goal with |- ?P => apply (@bool_decide_unpack P _); vm_compute; exact I end.

Lemma trimStart_empty s :
  JsString.trimStart s = "" ↔ JsString.all_white s = true.
Proof.
  induction s as [|c s IH]; simpl; [tauto|].
  destruct (JsString.is_white c); simpl; [exact IH|].
  split; discriminate.
Qed.

Lemma trimEnd_empty s :
  JsString.trimEnd s = "" ↔ JsString.all_white s = true.
Proof.
  induction s as [|c s IH]; simpl; [tauto|].
  destruct (JsString.trimEnd s) eqn:E.
  - destruct (JsString.is_white c); simpl.
    + split; [intros _; apply IH; reflexivity | reflexivity].
    + split; discriminate.
  - split; [discriminate|].
    intros H. apply andb_true_iff in H as [_ H]. apply IH in H. discriminate.
Qed.

Lemma analyzeVenue_missing_length v :
  length (missing (analyzeVenue v)) = empty_checked_fields v.
Proof.
  unfold analyzeVenue, empty_checked_fields; simpl.
  destruct (isEmpty (attr_name _)), (isEmpty (attr_phone _)),
    (isEmpty (attr_url _)); reflexivity.
Qed.

Lemma trim_empty s :
  JsString.is_empty_string (JsString.trim s) = JsString.all_white s.
Proof.
  unfold JsString.trim.
  destruct (JsString.all_white s) eqn:E.
  - apply trimStart_empty in E. rewrite E. reflexivity.
  - destruct (JsString.trimEnd (JsString.trimStart s)) eqn:T; [|reflexivity].
    apply trimEnd_empty in T.
    assert (JsString.all_white s = true); [|congruence].
    clear E. induction s as [|c s IH]; simpl in *; [reflexivity|].
    destruct (JsString.is_white c) eqn:W; simpl in *; [auto|].
    rewrite W in T. discriminate.
Qed.

(** The test of the scan on the name is [isEmpty] of the name. *)
Lemma unnamed_isEmpty name : unnamed name = isEmpty name.
Proof.
  destruct name as [s|]; [|reflexivity]. simpl.
  destruct s; reflexivity.
Qed.

(** ** The analyzer *)

(** A field is empty when it is absent or blank after trimming. *)
Lemma isEmpty_spec name : isEmpty name = true ↔ empty_after_trim name.
Proof.
  destruct name as [s|]; simpl; [|tauto].
  destruct (JsString.trim s); simpl; split; intros; congruence.
Qed.

Section Analyzer.

Variable v : Venue.

Let noName := isEmpty (attr_name (attributes v)).
Let noPhone := isEmpty (attr_phone (attributes v)).
Let noWebsite := isEmpty (attr_url (attributes v)).

Lemma analyzeVenue_hasContactInfo :
  hasContactInfo (analyzeVenue v) = negb noPhone || negb noWebsite.
Proof. reflexivity. Qed.

Lemma analyzeVenue_missing :
  missing (analyzeVenue v) =
  ((if noName then ["Name"] else []) ++ (if noPhone then ["Phone"] else [])
   ++ (if noWebsite then ["Website"] else []))%list.
Proof.
  unfold analyzeVenue, noName, noPhone, noWebsite; simpl.
  rewrite app_nil_r. reflexivity.
Qed.

(** C1: severity is COMPLETE when no checked field is empty; CRITICAL when
    at least one is empty and phone and website are both empty; MAJOR
    when at least two are empty and phone or website is present; MINOR
    when exactly one is empty and phone or website is present.  The four
    conditions are tried in this order. *)
Theorem analyzeVenue_severity_table :
  let n := empty_checked_fields v in
  let contact := negb noPhone || negb noWebsite in
  (∀ value, isEmpty value = true ↔ empty_after_trim value)
  ∧ (n = 0 → severity (analyzeVenue v) = COMPLETE)
  ∧ (1 ≤ n → contact = false → severity (analyzeVenue v) = CRITICAL)
  ∧ (2 ≤ n → contact = true → severity (analyzeVenue v) = MAJOR)
  ∧ (n = 1 → contact = true → severity (analyzeVenue v) = MINOR)
  ∧ severity (analyzeVenue v) =
      (if decide (n = 0) then COMPLETE
       else if negb contact then CRITICAL
       else if decide (2 ≤ n) then MAJOR
       else MINOR).
Proof.
  split; [exact isEmpty_spec|].
  unfold empty_checked_fields, analyzeVenue, noName, noPhone, noWebsite.
  simpl.
  destruct (isEmpty (attr_name _)), (isEmpty (attr_phone _)),
    (isEmpty (attr_url _)); simpl;
    repeat split; intros; try reflexivity; try discriminate; lia.
Qed.

End Analyzer.

(** ** The query builder *)


Lemma truthy_nonempty s : JsString.truthy s = true ↔ s ≠ "".
Proof. destruct s; simpl; split; intros H; try done. Qed.

Lemma append_assoc (a b c : string) : (a +:+ b) +:+ c = a +:+ (b +:+ c).
Proof.
  induction a as [|x a IH]; [reflexivity|].
  change (String x ((a +:+ b) +:+ c) = String x (a +:+ (b +:+ c))).
  f_equal. exact IH.
Qed.



Example buildSearchQuery_joes_cafe :
  buildSearchQuery "Joe's Cafe" ["CAFE"] "Denver" "CO" = "Joe's Cafe cafe Denver CO".
Proof. vm_compute. reflexivity. Qed.

(** ** The scan collector *)

Lemma hasExcludedCategory_spec categories :
  hasExcludedCategory categories = true
  ↔ ∃ cat, cat ∈ categories ∧ cat ∈ EXCLUDED_CATEGORIES.
Proof.
  unfold hasExcludedCategory. rewrite existsb_exists. split.
  - intros (cat & Hin & Hex). apply existsb_exists in Hex as (x & Hx & E).
    apply String.eqb_eq in E. subst x. exists cat.
    split; apply list_elem_of_In; assumption.
  - intros (cat & Hin & Hex). exists cat. split; [apply list_elem_of_In, Hin|].
    apply existsb_exists. exists cat.
    split; [apply list_elem_of_In, Hex | apply String.eqb_refl].
Qed.

(** The tests of the loop decide the exclusion of the specification. *)
Lemma eligible_spec venue : eligible venue = false ↔ excluded venue.
Proof.
  destruct venue as [v|]; simpl; [|tauto].
  rewrite unnamed_isEmpty, <- isEmpty_spec, <- hasExcludedCategory_spec.
  destruct (String.eqb_spec (venue_type v) "venue") as [E|E];
    destruct (isEmpty _), (hasExcludedCategory _); simpl; split; intros;
    try tauto; try discriminate; intuition discriminate.
Qed.

Lemma scan_fold location vs acc :
  fold_left (scan_venue location) vs acc =
  {| loop_state :=
       {| heap := heap (loop_state acc) ++ map (entry_for location) (stored vs);
          scannedVenues :=
            insert_all (length (heap (loop_state acc))) (stored vs)
                       (scannedVenues (loop_state acc));
          extractionInProgress := extractionInProgress (loop_state acc);
          requests := requests (loop_state acc) |};
     scanned := scanned acc + length (stored vs);
     skipped := skipped acc + length (filter counted_skipped vs) |}.
Proof.
  revert acc. induction vs as [|venue vs IH]; intros [[h m p r] n k].
  - simpl. rewrite app_nil_r, !Nat.add_0_r. reflexivity.
  - cbn [fold_left]. rewrite IH. clear IH.
    destruct venue as [v|]; [|reflexivity].
    unfold stored. rewrite filter_cons. cbn [omap list_omap].
    unfold scan_venue, eligible, counted_skipped.
    destruct (String.eqb (venue_type v) "venue") eqn:T; [|reflexivity].
    destruct (unnamed (attr_name (attributes v))) eqn:U.
    { cbn -[insert]. rewrite decide_True by done. cbn -[insert]. f_equal. symmetry; apply Nat.add_succ_r. }
    destruct (hasExcludedCategory _) eqn:X.
    { cbn -[insert]. rewrite decide_True by done. cbn -[insert]. f_equal. symmetry; apply Nat.add_succ_r. }
    cbn -[insert].
    rewrite length_app, <- app_assoc. cbn -[insert].
    rewrite Nat.add_1_r.
    f_equal; lia.
Qed.

Lemma insert_all_not_mem ref l (m : gmap string nat) id :
  (∀ v, v ∈ l → attr_id (attributes v) ≠ id) →
  insert_all ref l m !! id = m !! id.
Proof.
  revert ref m. induction l as [|v l IH]; intros ref m H; [reflexivity|].
  cbn [insert_all]. rewrite IH.
  - apply lookup_insert_ne, H. left.
  - intros v' Hv'. apply H. right. exact Hv'.
Qed.

(** A venue identity stored by the loop refers to the object of the last
    venue of the list with that identity. *)
Lemma insert_all_mem ref l (m : gmap string nat) id :
  (∃ v, v ∈ l ∧ attr_id (attributes v) = id) →
  ∃ i v, l !! i = Some v ∧ attr_id (attributes v) = id
         ∧ insert_all ref l m !! id = Some (ref + i).
Proof.
  revert ref m. induction l as [|v l IH]; intros ref m (v' & Hin & Hid).
  - inversion Hin.
  - cbn [insert_all].
    destruct (decide (Exists (λ w, attr_id (attributes w) = id) l)) as [E|E];
      rewrite Exists_exists in E.
    + destruct (IH (S ref) (<[attr_id (attributes v):=ref]> m) E)
        as (i & w & Hi & Hw & L).
      exists (S i), w. repeat split; [exact Hi|exact Hw|].
      rewrite L. f_equal. lia.
    + rewrite insert_all_not_mem.
      * apply elem_of_cons in Hin as [->|Hin]; [|exfalso; apply E; eauto].
        exists 0, v. rewrite <- Hid, lookup_insert_eq, Nat.add_0_r. done.
      * intros w Hw Ew. apply E. eauto.
Qed.

Lemma insert_all_lookup ref l (m : gmap string nat) id r :
  insert_all ref l m !! id = Some r →
  (m !! id = Some r ∧ ∀ v, v ∈ l → attr_id (attributes v) ≠ id)
  ∨ (∃ i v, l !! i = Some v ∧ attr_id (attributes v) = id ∧ r = ref + i).
Proof.
  intros H.
  destruct (decide (Exists (λ w, attr_id (attributes w) = id) l)) as [E|E];
      rewrite Exists_exists in E.
  - right. destruct (insert_all_mem ref l m id E) as (i & v & Hi & Hv & L).
    exists i, v. repeat split; congruence.
  - left. rewrite insert_all_not_mem in H; [split; [exact H|]|];
      intros w Hw Ew; apply E; eauto.
Qed.

Lemma scanLoadedVenues_eq W st :
  scanLoadedVenues W st =
  {| after_scan :=
       {| heap := heap st ++ map (entry_for (location_of W)) (eligible_venues W);
          scannedVenues :=
            insert_all (length (heap st)) (eligible_venues W) (scannedVenues st);
          extractionInProgress := extractionInProgress st;
          requests := requests st |};
     returned := length (eligible_venues W);
     console :=
       match W with
       | None => ModelNotReady
       | Some model =>
           Scanned (length (eligible_venues W))
                   (length (filter counted_skipped (venues model)))
       end |}.
Proof.
  destruct W as [model|]; unfold scanLoadedVenues.
  - rewrite scan_fold. reflexivity.
  - destruct st. cbn. rewrite app_nil_r. reflexivity.
Qed.

Lemma elem_of_stored v vs :
  v ∈ stored vs ↔ Some v ∈ vs ∧ eligible (Some v) = true.
Proof.
  unfold stored. rewrite list_elem_of_omap. split.
  - intros (venue & Hin & E). destruct (eligible venue) eqn:El; [|discriminate].
    subst venue. auto.
  - intros [Hin El]. exists (Some v). rewrite El. auto.
Qed.

Lemma elem_of_eligible_venues v W :
  v ∈ eligible_venues W
  ↔ ∃ model, W = Some model ∧ Some v ∈ venues model ∧ ¬ excluded (Some v).
Proof.
  destruct W as [model|]; cbn [eligible_venues].
  - rewrite elem_of_stored. split.
    + intros [Hin E]. exists model. repeat split; [exact Hin|].
      rewrite <- eligible_spec. congruence.
    + intros (? & [= <-] & Hin & E). split; [exact Hin|].
      rewrite <- eligible_spec in E. destruct (eligible (Some v)); congruence.
  - split; [intros H; inversion H | intros (? & [=] & _)].
Qed.

(** The entries of the map after [handleScanClick]. *)
Lemma handleScanClick_lookup W st id ref :
  scannedVenues (handleScanClick W st) !! id = Some ref →
  ∃ i v, eligible_venues W !! i = Some v ∧ attr_id (attributes v) = id
         ∧ ref = length (heap st) + i
         ∧ heap (handleScanClick W st) !! ref = Some (entry_for (location_of W) v).
Proof.
  unfold handleScanClick. rewrite scanLoadedVenues_eq. cbn.
  intros H. apply insert_all_lookup in H as [[H _]|(i & v & Hi & Hv & ->)].
  - rewrite lookup_empty in H. discriminate.
  - exists i, v. repeat split; try assumption.
    rewrite lookup_app_r by lia.
    replace (length (heap st) + i - length (heap st)) with i by lia.
    rewrite list_lookup_fmap, Hi. reflexivity.
Qed.

(** C5 (amended): the venues the scan analyzes and stores are exactly the
    venues that are not excluded; the scan returns the number of venues
    stored, and writes the number skipped to the console only. *)
Theorem scanLoadedVenues_stores_eligible (W : option WazeModel) (st : State) :
  let out := scanLoadedVenues W st in
  (∀ venue, eligible venue = false ↔ excluded venue)
  ∧ (∀ v, v ∈ eligible_venues W
          ↔ ∃ model, W = Some model ∧ Some v ∈ venues model ∧ ¬ excluded (Some v))
  ∧ heap (after_scan out)
    = heap st ++ map (entry_for (location_of W)) (eligible_venues W)
  ∧ (∀ id, (∃ v, v ∈ eligible_venues W ∧ attr_id (attributes v) = id) →
           ∃ i v, eligible_venues W !! i = Some v ∧ attr_id (attributes v) = id
                  ∧ scannedVenues (after_scan out) !! id = Some (length (heap st) + i))
  ∧ (∀ id, ¬ (∃ v, v ∈ eligible_venues W ∧ attr_id (attributes v) = id) →
           scannedVenues (after_scan out) !! id = scannedVenues st !! id)
  ∧ returned out = length (eligible_venues W)
  ∧ (∀ model, W = Some model →
       console out = Scanned (length (eligible_venues W))
                             (length (filter counted_skipped (venues model)))).
Proof.
  cbv zeta. rewrite scanLoadedVenues_eq. cbn.
  split; [exact eligible_spec|].
  split; [intros v; apply elem_of_eligible_venues|].
  split; [reflexivity|].
  split; [intros id; apply insert_all_mem|].
  split.
  { intros id H. apply insert_all_not_mem. intros v Hv E. apply H. eauto. }
  split; [reflexivity|].
  intros model ->. reflexivity.
Qed.

(** C5 as stated fails: the value the scan returns does not determine the
    number of venues skipped.  A model with no venue and a model with one
    unnamed venue both return 0; the first skips none, the second one. *)
Lemma scanLoadedVenues_return_omits_skipped :
  returned (scanLoadedVenues (model_of []) initial_state) = 0
  ∧ console (scanLoadedVenues (model_of []) initial_state) = Scanned 0 0
  ∧ returned (scanLoadedVenues (model_of [Some unnamed_venue]) initial_state) = 0
  ∧ console (scanLoadedVenues (model_of [Some unnamed_venue]) initial_state)
    = Scanned 0 1
  ∧ ¬ ∃ skipped_of : nat → nat,
        ∀ W st scanned skipped,
          console (scanLoadedVenues W st) = Scanned scanned skipped →
          skipped_of (returned (scanLoadedVenues W st)) = skipped.
Proof.
  do 4 (split; [reflexivity|]).
  intros (f & H).
  pose proof (H (model_of []) initial_state 0 0 eq_refl) as H0.
  pose proof (H (model_of [Some unnamed_venue]) initial_state 0 1 eq_refl) as H1.
  change (f 0 = 0) in H0. change (f 0 = 1) in H1. congruence.
Qed.

(** C6: after a scan the result set holds exactly the eligible venues of
    that scan, each referring to an entry object created by this scan with
    no extraction result; the entry objects of earlier scans are no longer
    in the result set. *)
Theorem handleScanClick_replaces (W : option WazeModel) (st : State) :
  let st' := handleScanClick W st in
  (∀ id ref, scannedVenues st' !! id = Some ref →
     length (heap st) ≤ ref
     ∧ ∃ v, v ∈ eligible_venues W ∧ attr_id (attributes v) = id
            ∧ heap st' !! ref = Some (entry_for (location_of W) v))
  ∧ (∀ v, v ∈ eligible_venues W →
          is_Some (scannedVenues st' !! attr_id (attributes v)))
  ∧ (∀ id ref e, scannedVenues st' !! id = Some ref → heap st' !! ref = Some e →
                 entry_extracted e = None)
  ∧ (∀ ref, ref < length (heap st) → heap st' !! ref = heap st !! ref).
Proof.
  cbv zeta. split; [|split; [|split]].
  - intros id ref H.
    apply handleScanClick_lookup in H as (i & v & Hi & Hv & -> & Hh).
    split; [lia|]. exists v. repeat split; try assumption.
    apply list_elem_of_lookup. eauto.
  - intros v Hin. unfold handleScanClick. rewrite scanLoadedVenues_eq. cbn.
    destruct (insert_all_mem (length (heap st)) (eligible_venues W) ∅
                (attr_id (attributes v))) as (i & w & _ & _ & L); [eauto|].
    rewrite L. eauto.
  - intros id ref e H He.
    apply handleScanClick_lookup in H as (i & v & _ & _ & _ & Hh).
    rewrite Hh in He. injection He as <-. reflexivity.
  - intros ref Hlt. unfold handleScanClick. rewrite scanLoadedVenues_eq. cbn.
    apply lookup_app_l. exact Hlt.
Qed.

Lemma named_never_MAJOR v :
  isEmpty (attr_name (attributes v)) = false → severity (analyzeVenue v) ≠ MAJOR.
Proof.
  unfold analyzeVenue. cbn. intros ->.
  destruct (isEmpty (attr_phone _)), (isEmpty (attr_url _)); cbn; discriminate.
Qed.

(** C10: a venue that passes the eligibility filter is never classified
    MAJOR, so every entry of the result set is COMPLETE, MINOR or
    CRITICAL. *)
Theorem stored_severity_never_MAJOR (W : option WazeModel) (st : State) :
  (∀ v location, eligible (Some v) = true →
     entry_severity (entry_for location v) ≠ MAJOR)
  ∧ (∀ id ref e,
       scannedVenues (handleScanClick W st) !! id = Some ref →
       heap (handleScanClick W st) !! ref = Some e →
       entry_severity e ∈ [COMPLETE; MINOR; CRITICAL]).
Proof.
  assert (∀ v location, eligible (Some v) = true →
            entry_severity (entry_for location v) ≠ MAJOR) as A.
  { intros v location E. cbn in E.
    apply andb_true_iff in E as [E _]. apply andb_true_iff in E as [_ E].
    rewrite unnamed_isEmpty in E. apply negb_true_iff in E.
    exact (named_never_MAJOR v E). }
  split; [exact A|].
  intros id ref e H He.
  apply handleScanClick_lookup in H as (i & v & Hi & _ & _ & Hh).
  rewrite Hh in He. injection He as <-.
  assert (v ∈ eligible_venues W) as Hv by (apply list_elem_of_lookup; eauto).
  assert (eligible (Some v) = true) as E.
  { destruct W; [apply elem_of_stored in Hv as [_ E]; exact E | inversion Hv]. }
  specialize (A v (location_of W) E).
  destruct (entry_severity (entry_for (location_of W) v)); try congruence;
    set_solver.
Qed.

(** ** The matcher moves forward *)

Section Progress.

Variable res : mstate.

Local Abbreviation reaches := (Regex.reaches res).

Lemma star_greedy_reaches p k i pv cs s :
  star_greedy p k i pv cs s = Some res → reaches k 0 i s.
Proof.
  revert i pv. induction s as [|x xs IH]; intros i pv; cbn [star_greedy].
  - intros H. eexists. split; [exact H|]. cbn. lia.
  - destruct (p x).
    + destruct (star_greedy p k (S i) (Some x) cs xs) eqn:E; cbn [orelse].
      * intros [= ->]. destruct (IH _ _ E) as (st' & K & ? & ?).
        exists st'. split; [exact K|]. cbn. lia.
      * intros H. eexists. split; [exact H|]. cbn. lia.
    + intros H. eexists. split; [exact H|]. cbn. lia.
Qed.

Lemma star_lazy_reaches p k i pv cs s :
  star_lazy p k i pv cs s = Some res → reaches k 0 i s.
Proof.
  revert i pv. induction s as [|x xs IH]; intros i pv; cbn [star_lazy].
  - intros H. eexists. split; [exact H|]. cbn. lia.
  - destruct (k {| pos := i; prev := pv; rest := String x xs; caps := cs |}) eqn:K.
    + destruct (p x); cbn [orelse]; intros [= ->];
        (eexists; split; [exact K|]; cbn; lia).
    + destruct (p x); cbn [orelse]; [|discriminate].
      intros H. destruct (IH _ _ H) as (st' & K' & ? & ?).
      exists st'. split; [exact K'|]. cbn. lia.
Qed.

Lemma run_reaches ic r : ∀ k st,
  run ic r k st = Some res →
  reaches k (if consumes r then 1 else 0) (pos st) (rest st).
Proof.
  induction r as [|c|r1 IH1 r2 IH2|r IH|c|c|g r IH|]; intros k st;
    cbn [run consumes].
  - intros H. exists st. split; [exact H|]. lia.
  - destruct (rest st) as [|x xs] eqn:R; [discriminate|].
    destruct (cmatch ic c x); [|discriminate].
    intros H. eexists. split; [exact H|]. cbn. lia.
  - intros H. destruct (IH1 _ _ H) as (st1 & K1 & ? & ?).
    destruct (IH2 _ _ K1) as (st2 & K2 & ? & ?).
    exists st2. split; [exact K2|].
    destruct (consumes r1), (consumes r2); cbn in *; lia.
  - destruct (run ic r k st) eqn:E; cbn [orelse].
    + intros [= ->]. destruct (IH _ _ E) as (st' & K & ? & ?).
      exists st'. split; [exact K|]. lia.
    + intros H. exists st. split; [exact H|]. lia.
  - apply star_greedy_reaches.
  - apply star_lazy_reaches.
  - intros H. destruct (IH _ _ H) as (st' & K & ? & ?).
    eexists. split; [exact K|]. cbn. lia.
  - destruct (xorb _ _); [|discriminate].
    intros H. exists st. split; [exact H|]. lia.
Qed.

End Progress.

Lemma search_from_bounds re : ∀ s i pv m,
  consumes (pattern re) = true →
  search_from re i pv s = Some m →
  i ≤ index m ∧ index m < end_index m ∧ end_index m ≤ i + String.length s.
Proof.
  induction s as [|x xs IH]; intros i pv m C; cbn [search_from];
    destruct (run _ _ _ _) as [st'|] eqn:R.
  - intros [= <-]. apply run_reaches in R as (st & [= ->] & H1 & H2).
    rewrite C in H1. cbn in *. lia.
  - discriminate.
  - intros [= <-]. apply run_reaches in R as (st & [= ->] & H1 & H2).
    rewrite C in H1. cbn in *. lia.
  - intros H. apply IH in H; [|exact C]. cbn. lia.
Qed.

Lemma length_drop n s :
  n ≤ String.length s → String.length (drop n s) = String.length s - n.
Proof.
  revert s. induction n as [|n IH]; intros s H.
  - destruct s; cbn; lia.
  - destruct s as [|x s]; cbn in *; [lia|]. apply IH. lia.
Qed.

(** A successful [exec] of a global regular expression whose matches are
    not empty moves [lastIndex] forward, within the input. *)
Lemma exec_progress re s lastIndex m :
  global re = true → consumes (pattern re) = true →
  exec re s lastIndex = Some m →
  lastIndex < end_index m ∧ end_index m ≤ String.length s.
Proof.
  unfold exec. intros -> C.
  destruct (Nat.ltb_spec (String.length s) lastIndex) as [|L]; [discriminate|].
  intros H. apply search_from_bounds in H; [|exact C].
  rewrite length_drop in H by exact L. lia.
Qed.

Lemma scriptRegex_progress html lastIndex m :
  exec scriptRegex html lastIndex = Some m →
  lastIndex < end_index m ∧ end_index m ≤ String.length html.
Proof. apply exec_progress; reflexivity. Qed.

Section ExtractorFacts.

Variable JSON_parse : string → option json.

(** The loop of [extractSchemaOrg] ends within the fuel it is given. *)
Lemma schema_loop_returns html : ∀ fuel lastIndex,
  lastIndex ≤ String.length html →
  String.length html - lastIndex < fuel →
  ∃ r, schema_loop JSON_parse fuel html lastIndex = Returned r.
Proof.
  induction fuel as [|fuel IH]; intros lastIndex L F; [lia|].
  cbn [schema_loop].
  destruct (exec scriptRegex html lastIndex) as [m|] eqn:E; [|eauto].
  apply scriptRegex_progress in E as [E1 E2].
  destruct (schema_block _ _) as [[fields|]|]; eauto; apply IH; lia.
Qed.

Lemma schema_loop_blocks html : ∀ fuel lastIndex r,
  schema_loop JSON_parse fuel html lastIndex = Returned r →
  first_business_block JSON_parse (script_blocks fuel html lastIndex) = r.
Proof.
  induction fuel as [|fuel IH]; intros lastIndex r; [discriminate|].
  cbn [schema_loop script_blocks].
  destruct (exec scriptRegex html lastIndex) as [m|] eqn:E.
  - cbn [first_business_block].
    destruct (schema_block _ _) as [[fields|]|]; [intros [= <-]; reflexivity | |];
      apply IH.
  - intros [= <-]. reflexivity.
Qed.

(** More fuel finds no more blocks. *)
Lemma script_blocks_stable html : ∀ fuel lastIndex,
  lastIndex ≤ String.length html →
  String.length html - lastIndex < fuel →
  script_blocks (S fuel) html lastIndex = script_blocks fuel html lastIndex.
Proof.
  induction fuel as [|fuel IH]; intros lastIndex L F; [lia|].
  change (script_blocks (S (S fuel)) html lastIndex)
    with (match exec scriptRegex html lastIndex with
          | None => []
          | Some m => default "" (group 1 m)
                      :: script_blocks (S fuel) html (end_index m)
          end).
  cbn [script_blocks].
  destruct (exec scriptRegex html lastIndex) as [m|] eqn:E; [|reflexivity].
  apply scriptRegex_progress in E as [E1 E2].
  f_equal. apply IH; lia.
Qed.

(** [extractSchemaOrg] returns the object of the first script block, in
    document order, whose processing returns one. *)
Lemma extractSchemaOrg_first_block html :
  extractSchemaOrg JSON_parse html
  = first_business_block JSON_parse (ld_json_blocks html).
Proof.
  unfold extractSchemaOrg, ld_json_blocks.
  destruct (schema_loop_returns html (S (String.length html)) 0) as [r R];
    [lia..|].
  rewrite R. symmetry. apply schema_loop_blocks. exact R.
Qed.


End ExtractorFacts.

(** ** The content extractor *)





(** What the [onload] handler of [scrapeWebsite] computes, by the strategy
    that is the first to find something. *)
Lemma scrape_response_cases (JSON_parse : string → option json) (url html : string) :
  scrape_response JSON_parse url html =
  match extractSchemaOrg JSON_parse html with
  | Some data =>
      Normal (<["sourceUrl" := JStr url]> (<["method" := JStr "Schema.org"]> data))
  | None =>
      match extractMicrodata html with
      | Some _ => Throw (TypeError "Assignment to constant variable.")
      | None =>
          match extractWithRegex html with
          | Some _ => Throw (TypeError "Assignment to constant variable.")
          | None =>
              Normal (<["sourceUrl" := JStr url]> (<["method" := JStr "None"]> ∅))
          end
      end
  end.
Proof.
  unfold scrape_response.
  destruct (extractSchemaOrg JSON_parse html) as [data|]; [reflexivity|].
  cbn [non_null negb].
  destruct (extractMicrodata html) as [data|]; [reflexivity|].
  cbn [non_null negb mbind completion_bind].
  destruct (extractWithRegex html) as [data|]; reflexivity.
Qed.

(** C2 at a page on which only the embedded-metadata strategy finds
    something: the handler throws at the assignment to [method], and
    [scrapeWebsite] calls back with the error and no data, so the entry gets
    the record of a failed fetch. *)
Theorem scrape_response_metadata_throws (JSON_parse : string → option json)
    (url : string) :
  extractSchemaOrg JSON_parse page_metadata_only = None
  ∧ extractMicrodata page_metadata_only
    = Some (<["phone" := JNull]>
            (<["website" := JStr "https://joes.example/"]>
             (<["address" := JNull]> ∅)))
  ∧ scrape_response JSON_parse url page_metadata_only
    = Throw (TypeError "Assignment to constant variable.")
  ∧ scrapeWebsite_callback JSON_parse url (Onload page_metadata_only)
    = (Some (TypeError "Assignment to constant variable."), None)
  ∧ entry_extracted
    <$> heap (deliver JSON_parse ReferenceHost.decodeURIComponent 0
                (Onload page_metadata_only)
                (deliver JSON_parse ReferenceHost.decodeURIComponent 0
                   (Onload search_page) (extractVenueData "v1" denver_scanned)))
        !! 0
    = Some (Some (failed_fetch_record "Joe's Cafe cafe Denver CO"
                                      "https://joes.example/")).
Proof.
  assert (extractSchemaOrg JSON_parse page_metadata_only = None) as S
    by (vm_compute; reflexivity).
  assert (extractMicrodata page_metadata_only
          = Some (<["phone" := JNull]>
                  (<["website" := JStr "https://joes.example/"]>
                   (<["address" := JNull]> ∅)))) as M
    by (vm_compute; reflexivity).
  assert (scrape_response JSON_parse url page_metadata_only
          = Throw (TypeError "Assignment to constant variable.")) as R
    by (rewrite scrape_response_cases, S, M; reflexivity).
  split; [exact S|]. split; [exact M|]. split; [exact R|].
  split; [unfold scrapeWebsite_callback; rewrite R; reflexivity|].
  vm_compute. reflexivity.
Qed.

(** ** The in-flight markers *)

Section RunFacts.

Variable JSON_parse : string → option json.
Variable decodeURIComponent : string → option string.







End RunFacts.

(** ** The lookup orchestrator *)

Section OrchestratorFacts.

Variable JSON_parse : string → option json.
Variable decodeURIComponent : string → option string.

Local Abbreviation answer := (deliver JSON_parse decodeURIComponent).

Lemma extractVenueData_starts st id ref e :
  scannedVenues st !! id = Some ref → heap st !! ref = Some e →
  id ∉ extractionInProgress st →
  extractVenueData id st =
  {| heap := heap st; scannedVenues := scannedVenues st;
     extractionInProgress := {[id]} ∪ extractionInProgress st;
     requests := requests st ++ [SearchRequest (search_query e) id ref] |}.
Proof.
  intros M H P. unfold extractVenueData. rewrite M, H.
  rewrite decide_False by exact P. reflexivity.
Qed.

(** The in-flight check of [extractVenueData]. *)
Lemma extractVenueData_marked id st :
  id ∈ extractionInProgress st → extractVenueData id st = st.
Proof.
  intros P. unfold extractVenueData.
  destruct (scannedVenues st !! id) as [ref|]; [|reflexivity].
  destruct (heap st !! ref) as [e|]; [|reflexivity].
  rewrite decide_True by exact P. reflexivity.
Qed.

(** The handler that runs when the host answers a pending request. *)
Lemma deliver_at st i request ev :
  requests st !! i = Some request →
  answer i ev st
  = let st := set_requests (delete i (requests st)) st in
    match request with
    | SearchRequest query venueId venueData =>
        match googleSearch_callback decodeURIComponent ev with
        | Some args => on_search query venueId venueData args st
        | None => st
        end
    | FetchRequest websiteUrl query venueId venueData =>
        on_scrape websiteUrl query venueId venueData
          (scrapeWebsite_callback JSON_parse websiteUrl ev) st
    end.
Proof. intros R. unfold deliver. rewrite R. reflexivity. Qed.

Lemma deliver_last st l request ev :
  requests st = l ++ [request] →
  answer (length l) ev st
  = match request with
    | SearchRequest query venueId venueData =>
        match googleSearch_callback decodeURIComponent ev with
        | Some args => on_search query venueId venueData args (set_requests l st)
        | None => set_requests l st
        end
    | FetchRequest websiteUrl query venueId venueData =>
        on_scrape websiteUrl query venueId venueData
          (scrapeWebsite_callback JSON_parse websiteUrl ev) (set_requests l st)
    end.
Proof.
  intros R. rewrite (deliver_at st (length l) request ev).
  - rewrite R, delete_middle, app_nil_r. reflexivity.
  - rewrite R. apply list_lookup_middle. reflexivity.
Qed.

Lemma marker_set id (s : gset string) : id ∈ {[id]} ∪ s.
Proof. apply elem_of_union_l, elem_of_singleton. reflexivity. Qed.

Lemma marker_cleared id (s : gset string) : id ∉ s ∖ {[id]}.
Proof.
  intros [_ N]%elem_of_difference. apply N, elem_of_singleton. reflexivity.
Qed.

Lemma search_fails_callback ev :
  search_fails decodeURIComponent ev →
  ∃ searchError websiteUrl,
    googleSearch_callback decodeURIComponent ev = Some (searchError, websiteUrl)
    ∧ non_null searchError || negb (JsString.truthy (default "" websiteUrl)) = true.
Proof.
  intros [html H|html m g M G D|]; cbn [googleSearch_callback].
  - rewrite H. eauto.
  - rewrite M, G. destruct (JsString.truthy g); [|eauto].
    destruct D as [-> | ->]; eauto.
  - eauto.
Qed.

(** C9: while an extraction is in flight for an identity, another
    [extractVenueData] for it changes nothing: no entry, no marker, and no
    request is added, dropped or changed.  In particular a second call
    right after a first one is without effect. *)
Theorem extractVenueData_in_flight_noop (id : string) (st : State) :
  (id ∈ extractionInProgress st → extractVenueData id st = st)
  ∧ extractVenueData id (extractVenueData id st) = extractVenueData id st.
Proof.
  split; [apply extractVenueData_marked|].
  destruct (scannedVenues st !! id) as [ref|] eqn:M.
  - destruct (heap st !! ref) as [e|] eqn:H.
    + destruct (decide (id ∈ extractionInProgress st)) as [P|P].
      * rewrite (extractVenueData_marked id st P). apply extractVenueData_marked, P.
      * rewrite (extractVenueData_starts st id ref e M H P).
        apply extractVenueData_marked, marker_set.
    + assert (extractVenueData id st = st) as E; [|rewrite !E; reflexivity].
      unfold extractVenueData. rewrite M, H. reflexivity.
  - assert (extractVenueData id st = st) as E; [|rewrite !E; reflexivity].
    unfold extractVenueData. rewrite M. reflexivity.
Qed.

(** C8, for a result set that no scan has replaced since the extraction
    began: [extractVenueData] hands the host a search request for the query
    of the entry; when that request is answered with a response that yields
    no result URL, or fails with an error, the extraction result stored for
    the identity becomes the record with exactly the reason and the query,
    whatever result the entry held before.  No other entry changes, no
    fetch is issued and the marker is cleared. *)
Theorem search_failure_record (st : State) (id : string) (ref : nat)
    (e : ScanEntry) :
  scannedVenues st !! id = Some ref → heap st !! ref = Some e →
  id ∉ extractionInProgress st →
  let query := search_query e in
  requests (extractVenueData id st) = requests st ++ [SearchRequest query id ref]
  ∧ ∀ (later : State) (i : nat) (prior : ScanEntry) (ev : HostEvent),
      requests later !! i = Some (SearchRequest query id ref) →
      scannedVenues later !! id = Some ref →
      heap later !! ref = Some prior →
      search_fails decodeURIComponent ev →
      let st' := answer i ev later in
      stored_result st' id
      = Some (Some (<["error" := JStr "No search results found"]>
                    (<["searchQuery" := JStr query]> ∅)))
      ∧ heap st' !! ref = Some (set_extracted (no_results_record query) prior)
      ∧ (∀ other, other ≠ ref → heap st' !! other = heap later !! other)
      ∧ scannedVenues st' = scannedVenues later
      ∧ requests st' = delete i (requests later)
      ∧ id ∉ extractionInProgress st'.
Proof.
  intros M H P. cbv zeta. split.
  { rewrite (extractVenueData_starts st id ref e M H P). reflexivity. }
  intros later i prior ev R Ml Hp F.
  rewrite (deliver_at later i _ ev R). cbv zeta.
  destruct (search_fails_callback ev F) as (searchError & websiteUrl & -> & Failed).
  unfold on_search. rewrite Failed. unfold set_requests, stored_result.
  cbn [finish store_extracted set_heap
       set_extractionInProgress heap scannedVenues extractionInProgress requests].
  assert (alter (set_extracted (no_results_record (search_query e))) ref (heap later)
            !! ref
          = Some (set_extracted (no_results_record (search_query e)) prior)) as A.
  { rewrite list_lookup_alter_eq, Hp. reflexivity. }
  split; [rewrite Ml; exact (f_equal (fmap entry_extracted) A)|]. split; [exact A|].
  split; [intros other N; apply list_lookup_alter_ne; congruence|].
  split; [reflexivity|]. split; [reflexivity|]. apply marker_cleared.
Qed.

(** C3 (the search request times out): the marker set by
    [extractVenueData] stays.  [googleSearch] registers no handler for a
    timeout, so nothing runs, no request is left that could clear the
    marker, and every later [extractVenueData] for the identity returns at
    its in-flight check.  The state breaks the discipline that every other
    action keeps ([reachable_markers_owned]): a marker without a request. *)
Theorem search_timeout_keeps_marker (st : State) (id : string) (ref : nat)
    (e : ScanEntry) :
  scannedVenues st !! id = Some ref → heap st !! ref = Some e →
  id ∉ extractionInProgress st →
  let st1 := extractVenueData id st in
  let st2 := answer (length (requests st)) Ontimeout st1 in
  id ∈ extractionInProgress st1
  ∧ requests st1 = requests st ++ [SearchRequest (search_query e) id ref]
  ∧ id ∈ extractionInProgress st2
  ∧ requests st2 = requests st
  ∧ heap st2 = heap st
  ∧ extractVenueData id st2 = st2
  ∧ ((∀ r, r ∈ requests st → request_id r ≠ id) → ¬ markers_owned st2).
Proof.
  intros M H P. cbv zeta.
  rewrite (extractVenueData_starts st id ref e M H P).
  rewrite (deliver_last _ (requests st) (SearchRequest (search_query e) id ref) Ontimeout)
    by reflexivity.
  unfold set_requests; cbn [heap scannedVenues extractionInProgress requests].
  cbn.
  pose proof (marker_set id (extractionInProgress st)) as I.
  repeat split; try exact I.
  - apply extractVenueData_marked. exact I.
  - intros N O. destruct (O id I) as (i & r & L & E). cbn in L.
    apply (N r); [|exact E]. apply list_elem_of_lookup. eauto.
Qed.

(** Every other outcome of the sequence clears the marker: a search that
    fails, and, after a search that found a URL, the page fetch whether it
    loads, fails or times out. *)
Lemma other_outcomes_clear_marker st id ref e ev :
  scannedVenues st !! id = Some ref → heap st !! ref = Some e →
  id ∉ extractionInProgress st →
  let st1 := extractVenueData id st in
  let st2 := answer (length (requests st)) ev st1 in
  match googleSearch_callback decodeURIComponent ev with
  | None => ev = Ontimeout
  | Some (None, Some (String c url)) =>
      requests st2
      = requests st ++ [FetchRequest (String c url) (search_query e) id ref]
      ∧ ∀ ev', id ∉ extractionInProgress (answer (length (requests st)) ev' st2)
  | Some _ => id ∉ extractionInProgress st2
  end.
Proof.
  intros M H P. cbv zeta.
  rewrite (extractVenueData_starts st id ref e M H P).
  rewrite (deliver_last _ (requests st) (SearchRequest (search_query e) id ref) ev)
    by reflexivity.
  unfold set_requests; cbn [heap scannedVenues extractionInProgress requests].
  destruct (googleSearch_callback decodeURIComponent ev)
    as [[[error|] [[|c url]|]]|] eqn:G;
    try (cbn; apply marker_cleared).
  - cbn [on_search non_null orb JsString.truthy JsString.is_empty_string
         negb default set_requests requests].
    split; [reflexivity|]. intros ev'.
    rewrite (deliver_last _ (requests st)
               (FetchRequest (String c url) (search_query e) id ref) ev')
      by reflexivity.
    unfold set_requests; cbn [heap scannedVenues extractionInProgress requests].
    unfold on_scrape.
    destruct (scrapeWebsite_callback JSON_parse (String c url) ev') as [[?|] ?];
      cbn; apply marker_cleared.
  - destruct ev as [html| |]; [exfalso|discriminate|reflexivity].
    cbn [googleSearch_callback] in G. repeat case_match; discriminate.
Qed.

End OrchestratorFacts.

(** ** Runs on the sample inputs *)

(** The phone pattern: separators [-] and [.] or none, an optional country
    code, word boundaries at both ends. *)
Example extractPhoneRegex_runs :
  extractPhoneRegex "call 303-555-0100 now" = Some "303-555-0100"
  ∧ extractPhoneRegex "call +1-303.555.0100 now" = Some "1-303.555.0100"
  ∧ extractPhoneRegex "fax (303)555-0100" = Some "303)555-0100"
  ∧ extractPhoneRegex "order 3035550100 shipped" = Some "3035550100"
  ∧ extractPhoneRegex "call (303) 555-0100 now" = None
  ∧ extractPhoneRegex "id 30355501001" = None
  ∧ extractPhoneRegex "x3035550100" = None.
Proof. repeat split; vm_compute; reflexivity. Qed.

(** The metadata patterns want the named attribute before [content], in
    one tag, in any letter case. *)
Example extractMicrodata_runs :
  extractMicrodata "<META itemprop='telephone' lang='en' CONTENT='555-0100'>"
  = Some (<["phone" := JStr "555-0100"]>
          (<["website" := JNull]> (<["address" := JNull]> ∅)))
  ∧ extractMicrodata
      ("<meta name='telephone' content='1'>"
       +:+ "<meta property='business:contact_data:phone_number' content='2'>")
    = Some (<["phone" := JStr "2"]>
            (<["website" := JNull]> (<["address" := JNull]> ∅)))
  ∧ extractMicrodata "<meta content='555-0100' itemprop='telephone'>" = None
  ∧ extractMicrodata "<meta itemprop='telephone'><meta content='555-0100'>" = None.
Proof. repeat split; vm_compute; reflexivity. Qed.

Example JSON_parse_runs :
  ReferenceHost.JSON_parse good_block = Some (JObj good_item)
  ∧ ReferenceHost.JSON_parse "{bad" = None
  ∧ ReferenceHost.JSON_parse " [1, -2.5e1, true, null] "
    = Some (JArr [JNum 1; JNum (-25); JBool true; JNull])
  ∧ ReferenceHost.JSON_parse "[1,]" = None
  ∧ ReferenceHost.JSON_parse "{} {}" = None.
Proof. repeat split; vm_compute; reflexivity. Qed.

(** The priority of the strategies on the sample pages. *)
Example scrape_response_runs :
  scrape_response ReferenceHost.JSON_parse "https://joes.example/" page_bad_then_good
  = Normal (<["sourceUrl" := JStr "https://joes.example/"]>
            (<["method" := JStr "Schema.org"]> (mapped_fields good_item)))
  ∧ scrape_response ReferenceHost.JSON_parse "https://joes.example/" page_phone_only
    = Throw (TypeError "Assignment to constant variable.")
  ∧ extractWithRegex page_phone_only
    = Some (<["phone" := JStr "303-555-0100"]>
            (<["website" := JNull]> (<["address" := JNull]> ∅)))
  ∧ scrape_response ReferenceHost.JSON_parse "https://joes.example/" no_results_page
    = Normal (<["sourceUrl" := JStr "https://joes.example/"]>
              (<["method" := JStr "None"]> ∅)).
Proof. repeat split; vm_compute; reflexivity. Qed.

(** The two venues of the specification's scenarios. *)
Example analyzeVenue_runs :
  analyzeVenue joes_cafe
  = {| severity := CRITICAL; missing := ["Phone"; "Website"];
       hasContactInfo := false |}
  ∧ analyzeVenue acme_garage
    = {| severity := MINOR; missing := ["Website"]; hasContactInfo := true |}.
Proof. split; reflexivity. Qed.

(** C8 as written fails in two runs.  After a new scan, the failed
    search of an extraction that began before the scan leaves the entry of
    the result set without result: the record is written to the entry
    object of the old scan.  And a search request that times out stores
    nothing: the record of the attempt before stays. *)
Lemma search_failure_not_stored :
  (let st := deliver ReferenceHost.JSON_parse ReferenceHost.decodeURIComponent 0 Onerror
               (handleScanClick denver (extractVenueData "v1" denver_scanned)) in
   scannedVenues st !! "v1" = Some 1
   ∧ stored_result st "v1" = Some None
   ∧ entry_extracted <$> heap st !! 0
     = Some (Some (no_results_record "Joe's Cafe cafe Denver CO"))
   ∧ extractionInProgress st = ∅)
  ∧ (let st := deliver ReferenceHost.JSON_parse ReferenceHost.decodeURIComponent
                 0 Ontimeout (extractVenueData "v1" denver_after_fetch_timeout) in
     stored_result st "v1"
     = Some (Some (failed_fetch_record "Joe's Cafe cafe Denver CO"
                                       "https://joes.example/"))).
Proof. repeat split; vm_compute; reflexivity. Qed.

(** One venue for each row of the table. *)
Lemma analyzeVenue_severity_table_witness :
  severity (analyzeVenue complete_venue) = COMPLETE
  ∧ severity (analyzeVenue joes_cafe) = CRITICAL
  ∧ severity (analyzeVenue nameless_venue) = MAJOR
  ∧ severity (analyzeVenue acme_garage) = MINOR.
Proof.
  split; [|split; [|split]].
  - apply (proj1 (proj2 (analyzeVenue_severity_table complete_venue))). reflexivity.
  - apply (proj1 (proj2 (proj2 (analyzeVenue_severity_table joes_cafe))));
      [vm_compute; lia | reflexivity].
  - apply (proj1 (proj2 (proj2 (proj2 (analyzeVenue_severity_table nameless_venue)))));
      [vm_compute; lia | reflexivity].
  - apply (proj1 (proj2 (proj2 (proj2 (proj2
             (analyzeVenue_severity_table acme_garage))))));
      reflexivity.
Defined.


(** A scan of two eligible venues, an unnamed venue and a null record. *)
Lemma scanLoadedVenues_stores_eligible_witness :
  let W := model_of [Some joes_cafe; Some unnamed_venue; None; Some complete_venue] in
  eligible_venues W = [joes_cafe; complete_venue]
  ∧ returned (scanLoadedVenues W initial_state) = 2
  ∧ console (scanLoadedVenues W initial_state) = Scanned 2 1.
Proof.
  cbv zeta. split; [reflexivity|]. split.
  - exact (proj1 (proj2 (proj2 (proj2 (proj2 (proj2
      (scanLoadedVenues_stores_eligible
         (model_of [Some joes_cafe; Some unnamed_venue; None; Some complete_venue])
         initial_state))))))).
  - exact (proj2 (proj2 (proj2 (proj2 (proj2 (proj2
      (scanLoadedVenues_stores_eligible
         (model_of [Some joes_cafe; Some unnamed_venue; None; Some complete_venue])
         initial_state)))))) _ eq_refl).
Defined.

(** A scan after an extraction has attached a result: the identity refers to
    a new entry object without result. *)
Lemma handleScanClick_replaces_witness :
  entry_extracted <$> heap denver_after_fetch_timeout !! 0
  = Some (Some (failed_fetch_record "Joe's Cafe cafe Denver CO" "https://joes.example/"))
  ∧ scannedVenues denver_after_fetch_timeout !! "v1" = Some 0
  ∧ scannedVenues (handleScanClick denver denver_after_fetch_timeout) !! "v1" = Some 1
  ∧ entry_extracted <$> heap (handleScanClick denver denver_after_fetch_timeout) !! 1
    = Some None.
Proof.
  split; [vm_compute; reflexivity|]. split; [vm_compute; reflexivity|].
  split; [vm_compute; reflexivity|].
  assert (heap (handleScanClick denver denver_after_fetch_timeout) !! 1
          = Some (entry_for (location_of denver) joes_cafe)) as H
    by (vm_compute; reflexivity).
  rewrite H. cbn [fmap option_fmap option_map]. apply (f_equal Some).
  apply (proj1 (proj2 (proj2 (handleScanClick_replaces denver denver_after_fetch_timeout)))
           "v1" 1 (entry_for (location_of denver) joes_cafe));
    [vm_compute; reflexivity | exact H].
Defined.

(** The entry of a scanned venue without phone and website. *)
Lemma stored_severity_never_MAJOR_witness :
  entry_severity (entry_for (location_of denver) joes_cafe)
  ∈ [COMPLETE; MINOR; CRITICAL].
Proof.
  apply (proj2 (stored_severity_never_MAJOR denver initial_state) "v1" 0);
    vm_compute; reflexivity.
Defined.

(** A second extraction while the search request of the first is pending. *)
Lemma extractVenueData_in_flight_noop_witness :
  "v1" ∈ extractionInProgress (extractVenueData "v1" denver_scanned)
  ∧ requests (extractVenueData "v1" denver_scanned)
    = [SearchRequest "Joe's Cafe cafe Denver CO" "v1" 0]
  ∧ extractVenueData "v1" (extractVenueData "v1" denver_scanned)
    = extractVenueData "v1" denver_scanned.
Proof.
  assert ("v1" ∈ extractionInProgress (extractVenueData "v1" denver_scanned)) as P
    by by_decide.
  split; [exact P|]. split; [vm_compute; reflexivity|].
  exact (proj1 (extractVenueData_in_flight_noop "v1" _) P).
Defined.

(** A retry whose search finds nothing, after an attempt whose fetch timed
    out: the record of the failed fetch is gone. *)
Lemma search_failure_record_witness :
  let st := deliver ReferenceHost.JSON_parse ReferenceHost.decodeURIComponent
              0 (Onload no_results_page)
              (extractVenueData "v1" denver_after_fetch_timeout) in
  stored_result denver_after_fetch_timeout "v1"
  = Some (Some (failed_fetch_record "Joe's Cafe cafe Denver CO" "https://joes.example/"))
  ∧ stored_result st "v1"
    = Some (Some (<["error" := JStr "No search results found"]>
                  (<["searchQuery" := JStr "Joe's Cafe cafe Denver CO"]> ∅))).
Proof.
  cbv zeta. split; [vm_compute; reflexivity|].
  refine (proj1
    (proj2 (search_failure_record ReferenceHost.JSON_parse
              ReferenceHost.decodeURIComponent
              denver_after_fetch_timeout "v1" 0
              (set_extracted
                 (failed_fetch_record "Joe's Cafe cafe Denver CO" "https://joes.example/")
                 (entry_for (location_of denver) joes_cafe))
              _ _ _)
       (extractVenueData "v1" denver_after_fetch_timeout) 0
       (set_extracted
          (failed_fetch_record "Joe's Cafe cafe Denver CO" "https://joes.example/")
          (entry_for (location_of denver) joes_cafe))
       (Onload no_results_page) _ _ _ _)).
  - vm_compute; reflexivity.
  - vm_compute; reflexivity.
  - by_decide.
  - vm_compute; reflexivity.
  - vm_compute; reflexivity.
  - vm_compute; reflexivity.
  - apply no_result_link. vm_compute; reflexivity.
Defined.

(** The scanned venue of [denver] and a search request that times out. *)
Lemma search_timeout_keeps_marker_witness :
  let st2 := deliver ReferenceHost.JSON_parse ReferenceHost.decodeURIComponent
               0 Ontimeout (extractVenueData "v1" denver_scanned) in
  "v1" ∈ extractionInProgress st2 ∧ requests st2 = []
  ∧ extractVenueData "v1" st2 = st2 ∧ ¬ markers_owned st2.
Proof.
  cbv zeta.
  pose proof (search_timeout_keeps_marker
                ReferenceHost.JSON_parse ReferenceHost.decodeURIComponent
                denver_scanned "v1" 0 (entry_for (location_of denver) joes_cafe)
                ltac:(vm_compute; reflexivity) ltac:(vm_compute; reflexivity)
                ltac:(by_decide)) as H.
  cbv zeta in H. destruct H as (_ & _ & H2 & H3 & _ & H5 & H6).
  split; [exact H2|]. split; [exact H3|]. split; [exact H5|].
  apply H6. intros r Hr. inversion Hr.
Defined.
(** ** What the matcher takes *)

Section MatcherSound.

Import RegexLang.

Lemma append_cons x (a b : string) : String x a +:+ b = String x (a +:+ b).
Proof. reflexivity. Qed.

Lemma append_nil_r (a : string) : a +:+ "" = a.
Proof.
  induction a as [|x a IH]; [reflexivity|]. rewrite append_cons, IH. reflexivity.
Qed.

Lemma length_append (a b : string) :
  String.length (a +:+ b) = String.length a + String.length b.
Proof.
  induction a as [|x a IH]; [reflexivity|].
  rewrite append_cons. cbn [String.length]. rewrite IH. reflexivity.
Qed.

Lemma substring_prefix (w t : string) :
  substring 0 (String.length w) (w +:+ t) = w.
Proof.
  induction w as [|x w IH].
  - destruct t; reflexivity.
  - rewrite append_cons. cbn [String.length substring]. rewrite IH. reflexivity.
Qed.

Lemma all_chars_append p (a b : string) :
  all_chars p (a +:+ b) = all_chars p a && all_chars p b.
Proof.
  induction a as [|x a IH]; [reflexivity|].
  rewrite append_cons. cbn [all_chars]. rewrite IH, andb_assoc. reflexivity.
Qed.

Lemma count_chars_append p (a b : string) :
  count_chars p (a +:+ b) = count_chars p a + count_chars p b.
Proof.
  induction a as [|x a IH]; [reflexivity|].
  rewrite append_cons. cbn [count_chars]. rewrite IH. lia.
Qed.

Variable res : mstate.
Variable good : nat → string → Prop.

Local Abbreviation takes := (RegexLang.takes res good).

Lemma takes_here k st :
  k st = Some res → takes k (pos st) (rest st) (caps st) "" st.
Proof. intros H. split; [exact H|]. cbn. repeat split; [lia|auto]. Qed.

Lemma takes_char k i s cs x w st' :
  takes k (S i) s cs w st' → takes k i (String x s) cs (String x w) st'.
Proof.
  intros (K & R & P & C). split; [exact K|].
  rewrite append_cons, <- R. cbn [String.length]. repeat split; [lia|exact C].
Qed.

Lemma star_greedy_takes p k i pv cs s :
  star_greedy p k i pv cs s = Some res →
  ∃ st' w, takes k i s cs w st' ∧ all_chars p w = true.
Proof.
  revert i pv. induction s as [|x xs IH]; intros i pv; cbn [star_greedy].
  - intros H. eexists _, "". split; [exact (takes_here k _ H)|reflexivity].
  - assert (k {| pos := i; prev := pv; rest := String x xs; caps := cs |} = Some res →
            ∃ st' w, takes k i (String x xs) cs w st' ∧ all_chars p w = true) as Here.
    { intros H. eexists _, "". split; [exact (takes_here k _ H)|reflexivity]. }
    destruct (p x) eqn:Px; [|exact Here].
    destruct (star_greedy p k (S i) (Some x) cs xs) eqn:E; cbn [orelse]; [|exact Here].
    intros [= ->]. destruct (IH _ _ E) as (st' & w & T & A).
    exists st', (String x w). split; [apply takes_char, T|].
    cbn [all_chars]. rewrite Px, A. reflexivity.
Qed.

Lemma star_lazy_takes p k i pv cs s :
  star_lazy p k i pv cs s = Some res →
  ∃ st' w, takes k i s cs w st' ∧ all_chars p w = true.
Proof.
  revert i pv. induction s as [|x xs IH]; intros i pv; cbn [star_lazy].
  - intros H. eexists _, "". split; [exact (takes_here k _ H)|reflexivity].
  - destruct (k {| pos := i; prev := pv; rest := String x xs; caps := cs |}) eqn:K.
    + intros H. assert (m = res) as ->
        by (destruct (p x); cbn [orelse] in H; congruence).
      eexists _, "". split; [exact (takes_here k _ K)|reflexivity].
    + destruct (p x) eqn:Px; cbn [orelse]; [|discriminate].
      intros H. destruct (IH _ _ H) as (st' & w & T & A).
      exists st', (String x w). split; [apply takes_char, T|].
      cbn [all_chars]. rewrite Px, A. reflexivity.
Qed.

Lemma run_takes ic r :
  groups_good ic good r → ∀ k st,
  run ic r k st = Some res →
  ∃ st' w, takes k (pos st) (rest st) (caps st) w st' ∧ lang ic r w.
Proof.
  induction r as [|c|r1 IH1 r2 IH2|r IH|c|c|g r IH|]; intros G k st;
    cbn [run lang groups_good] in *.
  - intros H. exists st, "". split; [exact (takes_here k st H)|reflexivity].
  - destruct (rest st) as [|x xs] eqn:R; [discriminate|].
    destruct (cmatch ic c x) eqn:M; [|discriminate].
    intros H. eexists _, (String x ""). split; [|eauto].
    apply takes_char. exact (takes_here k (advance st x xs) H).
  - destruct G as [G1 G2]. intros H.
    destruct (IH1 G1 _ _ H) as (st1 & w1 & (K1 & R1 & P1 & C1) & L1).
    destruct (IH2 G2 _ _ K1) as (st2 & w2 & (K2 & R2 & P2 & C2) & L2).
    exists st2, (w1 +:+ w2). split; [|eauto].
    split; [exact K2|]. rewrite R1, R2, append_assoc, length_append.
    repeat split; [lia|auto].
  - destruct (run ic r k st) eqn:E; cbn [orelse].
    + intros [= ->]. destruct (IH G _ _ E) as (st' & w & T & L). eauto.
    + intros H. exists st, "". split; [exact (takes_here k st H)|auto].
  - intros H. apply star_greedy_takes in H as (st' & w & T & A). eauto.
  - intros H. apply star_lazy_takes in H as (st' & w & T & A). eauto.
  - destruct G as [Gg G]. intros H.
    destruct (IH G _ _ H) as (st1 & w & (K & R & P & C) & L).
    eexists _, w. split; [|exact L].
    split; [exact K|]. cbn [rest pos caps set_cap].
    repeat split; [exact R|exact P|].
    intros Cs j t [[= -> ->]|In]%elem_of_cons; [|exact (C Cs j t In)].
    apply Gg. rewrite R, P.
    replace (pos st + String.length w - pos st) with (String.length w) by lia.
    rewrite substring_prefix. exact L.
  - destruct (xorb _ _); [|discriminate].
    intros H. exists st, "". split; [exact (takes_here k st H)|reflexivity].
Qed.

End MatcherSound.

Lemma match_here_sound ic r good i pv s st' :
  RegexLang.groups_good ic good r →
  run ic r Some {| pos := i; prev := pv; rest := s; caps := [] |} = Some st' →
  s = substring 0 (pos st' - i) s +:+ rest st'
  ∧ pos st' = i + String.length (substring 0 (pos st' - i) s)
  ∧ RegexLang.lang ic r (substring 0 (pos st' - i) s)
  ∧ RegexLang.caps_good good (caps st').
Proof.
  intros G R.
  apply (run_takes st' good _ _ G) in R as (st & w & (E & Rs & P & C) & L).
  injection E as ->. cbn [pos rest caps] in Rs, P, C.
  rewrite P. replace (i + String.length w - i) with (String.length w) by lia.
  rewrite Rs at 2 3 4. rewrite !substring_prefix.
  repeat split; [exact Rs|exact L|].
  apply C. intros ? ? In. inversion In.
Qed.

(** A match lies in the input, and its text and captures are as the
    pattern says. *)
Lemma search_from_sound re good : ∀ s i pv m,
  RegexLang.groups_good (ignoreCase re) good (pattern re) →
  search_from re i pv s = Some m →
  ∃ before after,
    s = before +:+ matched m +:+ after
    ∧ index m = i + String.length before
    ∧ end_index m = index m + String.length (matched m)
    ∧ RegexLang.lang (ignoreCase re) (pattern re) (matched m)
    ∧ RegexLang.caps_good good (captures m).
Proof.
  assert (∀ s i pv st',
            RegexLang.groups_good (ignoreCase re) good (pattern re) →
            run (ignoreCase re) (pattern re) Some
                {| pos := i; prev := pv; rest := s; caps := [] |} = Some st' →
            ∃ before after,
              s = before +:+ substring 0 (pos st' - i) s +:+ after
              ∧ i = i + String.length before
              ∧ pos st' = i + String.length (substring 0 (pos st' - i) s)
              ∧ RegexLang.lang (ignoreCase re) (pattern re)
                  (substring 0 (pos st' - i) s)
              ∧ RegexLang.caps_good good (caps st')) as Here.
  { intros s i pv st' G R.
    destruct (match_here_sound _ _ good i pv s st' G R) as (Rs & P & L & C).
    exists "", (rest st'). repeat split; [exact Rs|cbn; lia|exact P|exact L|exact C]. }
  induction s as [|x xs IH]; intros i pv m G; cbn [search_from];
    destruct (run _ _ _ _) as [st'|] eqn:R.
  - intros [= <-]. exact (Here _ _ _ _ G R).
  - discriminate.
  - intros [= <-]. exact (Here _ _ _ _ G R).
  - intros H. apply IH in H as (before & after & S & I & E & L & C); [|exact G].
    exists (String x before), after. rewrite append_cons, <- S. cbn [String.length].
    repeat split; [lia|exact E|exact L|exact C].
Qed.

Lemma String_match_sound re good s m :
  global re = false →
  RegexLang.groups_good (ignoreCase re) good (pattern re) →
  String_match s re = Some m →
  ∃ before after,
    s = before +:+ matched m +:+ after
    ∧ RegexLang.lang (ignoreCase re) (pattern re) (matched m)
    ∧ RegexLang.caps_good good (captures m).
Proof.
  unfold String_match, exec. intros -> G. cbn.
  intros H. apply (search_from_sound re good) in H as (b & a & S & _ & _ & L & C);
    [|exact G].
  destruct s; cbn in S; eauto.
Qed.

Lemma group_good good i m g :
  RegexLang.caps_good good (captures m) → group i m = Some g → good i g.
Proof.
  unfold group. intros C H.
  destruct (List.find _ _) as [[j g']|] eqn:F; [|discriminate].
  injection H as <-. apply find_some in F as [In E].
  apply Nat.eqb_eq in E. cbn in E. subst j.
  apply C, list_elem_of_In, In.
Qed.

Section Bounds.

Import RegexLang.

Lemma all_ascii_complete x : x ∈ all_ascii.
Proof.
  unfold all_ascii. apply list_elem_of_fmap. exists (nat_of_ascii x).
  split; [symmetry; apply ascii_nat_embedding|].
  apply list_elem_of_In, in_seq. pose proof (nat_ascii_bounded x). lia.
Qed.

Lemma class_within_spec ic c p x :
  class_within ic c p = true → cmatch ic c x = true → p x = true.
Proof.
  unfold class_within. rewrite forallb_forall. intros H M.
  specialize (H x (proj1 (list_elem_of_In _ _) (all_ascii_complete x))).
  rewrite M in H. exact H.
Qed.

Lemma all_chars_within ic c p w :
  class_within ic c p = true → all_chars (cmatch ic c) w = true →
  all_chars p w = true.
Proof.
  intros W. induction w as [|x w IH]; [reflexivity|]. cbn [all_chars].
  intros [M A]%andb_true_iff. rewrite (class_within_spec _ _ _ _ W M). auto.
Qed.

Lemma lang_chars_within ic p r : ∀ w,
  chars_within ic p r = true → lang ic r w → all_chars p w = true.
Proof.
  induction r as [|c|r1 IH1 r2 IH2|r IH|c|c|g r IH|]; intros w;
    cbn [chars_within lang].
  - intros _ ->. reflexivity.
  - intros W (x & -> & M). cbn. rewrite (class_within_spec _ _ _ _ W M). reflexivity.
  - intros [W1 W2]%andb_true_iff (w1 & w2 & -> & L1 & L2).
    rewrite all_chars_append, (IH1 _ W1 L1), (IH2 _ W2 L2). reflexivity.
  - intros W [->|L]; [reflexivity|auto].
  - apply all_chars_within.
  - apply all_chars_within.
  - auto.
  - intros _ ->. reflexivity.
Qed.

Lemma count_none p w :
  all_chars (λ x, negb (p x)) w = true → count_chars p w = 0.
Proof.
  induction w as [|x w IH]; [reflexivity|]. cbn [all_chars count_chars].
  intros [N A]%andb_true_iff. apply negb_true_iff in N. rewrite N, IH; auto.
Qed.

Lemma lang_count ic p r : ∀ w,
  lang ic r w →
  min_count ic p r ≤ count_chars p w
  ∧ ∀ n, max_count ic p r = Some n → count_chars p w ≤ n.
Proof.
  induction r as [|c|r1 IH1 r2 IH2|r IH|c|c|g r IH|]; intros w;
    cbn [min_count max_count lang].
  - intros ->. cbn. split; [lia|intros n [= <-]; lia].
  - intros (x & -> & M). cbn [count_chars]. split.
    + destruct (class_within ic c p) eqn:W; [|lia].
      rewrite (class_within_spec _ _ _ _ W M). lia.
    + intros n. destruct (class_within ic c (λ x, negb (p x))) eqn:W; intros [= <-].
      * apply (class_within_spec _ _ _ _ W) in M. apply negb_true_iff in M.
        rewrite M. lia.
      * destruct (p x); lia.
  - intros (w1 & w2 & -> & L1 & L2). rewrite count_chars_append.
    destruct (IH1 _ L1) as [A1 B1], (IH2 _ L2) as [A2 B2]. split; [lia|].
    intros n. destruct (max_count ic p r1) as [a|]; [|discriminate].
    destruct (max_count ic p r2) as [b|]; [|discriminate].
    intros [= <-]. specialize (B1 a eq_refl). specialize (B2 b eq_refl). lia.
  - intros [->|L].
    + cbn. split; [lia|intros; lia].
    + destruct (IH _ L) as [_ B]. split; [lia|exact B].
  - intros A. split; [lia|]. intros n.
    destruct (class_within ic c (λ x, negb (p x))) eqn:W; [|discriminate].
    intros [= <-]. rewrite count_none; [lia|]. exact (all_chars_within _ _ _ _ W A).
  - intros A. split; [lia|]. intros n.
    destruct (class_within ic c (λ x, negb (p x))) eqn:W; [|discriminate].
    intros [= <-]. rewrite count_none; [lia|]. exact (all_chars_within _ _ _ _ W A).
  - auto.
  - intros ->. cbn. split; [lia|intros n [= <-]; lia].
Qed.

Lemma count_all_length w : count_chars (λ _, true) w = String.length w.
Proof. induction w as [|x w IH]; [reflexivity|]. cbn. rewrite IH. reflexivity. Qed.

End Bounds.
(** ** The extractors' results *)

Lemma groups_good_lit ic good s : RegexLang.groups_good ic good (lit s).
Proof. induction s as [|x s IH]; cbn; auto. Qed.

(** A text taken by [c+] is not empty and made of characters of [c]. *)
Lemma lang_plus ic c p w :
  RegexLang.class_within ic c p = true →
  RegexLang.lang ic (plus c) w → w ≠ "" ∧ RegexLang.all_chars p w = true.
Proof.
  intros W (w1 & w2 & -> & (x & -> & M) & A). split; [discriminate|].
  rewrite append_cons. cbn [RegexLang.all_chars].
  rewrite (class_within_spec _ _ _ _ W M). cbn.
  exact (all_chars_within _ _ _ _ W A).
Qed.

(** X1: a phone number found by [extractPhoneRegex] is a part of the
    text, is made of digits and the characters [+ - . ( )] only, and has 10
    or 11 digits and 10 to 17 characters. *)
Theorem extractPhoneRegex_shape (text phone : string) :
  extractPhoneRegex text = Some phone →
  (∃ before after, text = before +:+ phone +:+ after)
  ∧ RegexLang.all_chars phone_char phone = true
  ∧ 10 ≤ RegexLang.count_chars Regex.is_digit phone ≤ 11
  ∧ 10 ≤ String.length phone ≤ 17.
Proof.
  unfold extractPhoneRegex.
  destruct (String_match text phoneRegex) as [m|] eqn:M; [|discriminate].
  intros [= <-].
  apply (String_match_sound phoneRegex (λ _ _, True)) in M
    as (before & after & S & L & _); [|reflexivity|cbn; tauto].
  split; [eauto|]. split.
  { apply (lang_chars_within false phone_char (pattern phoneRegex));
      [vm_compute; reflexivity|exact L]. }
  pose proof (lang_count false Regex.is_digit _ _ L) as [D1 D2].
  pose proof (lang_count false (λ _, true) _ _ L) as [N1 N2].
  specialize (D2 11 ltac:(vm_compute; reflexivity)).
  specialize (N2 17 ltac:(vm_compute; reflexivity)).
  rewrite count_all_length in N1, N2.
  assert (RegexLang.min_count false Regex.is_digit (pattern phoneRegex) = 10) as E1
    by (vm_compute; reflexivity).
  assert (RegexLang.min_count false (λ _, true) (pattern phoneRegex) = 10) as E2
    by (vm_compute; reflexivity).
  cbn [ignoreCase phoneRegex] in D1, N1. rewrite E1 in D1. rewrite E2 in N1. lia.
Qed.

Lemma groups_good_meta_pattern attribute value :
  RegexLang.groups_good true
    (λ _ g, g ≠ "" ∧ RegexLang.all_chars not_quote g = true)
    (pattern (meta_pattern attribute value)).
Proof.
  assert (∀ t, RegexLang.lang true (plus (NoneOf ["034"; "'"]%char)) t →
               t ≠ "" ∧ RegexLang.all_chars not_quote t = true) as P.
  { intros t L. apply (lang_plus true (NoneOf ["034"; "'"]%char) not_quote t);
      [vm_compute; reflexivity|exact L]. }
  cbn -[plus lit]. repeat split; try apply groups_good_lit; apply P; assumption.
Qed.

Lemma first_pattern_match_text patterns html g :
  Forall (λ re, ∃ attribute value, re = meta_pattern attribute value) patterns →
  first_pattern_match patterns html = Some g →
  g ≠ "" ∧ RegexLang.all_chars not_quote g = true.
Proof.
  induction 1 as [|re patterns (attribute & value & ->) _ IH];
    cbn [first_pattern_match]; [discriminate|].
  destruct (String_match html (meta_pattern attribute value)) as [m|] eqn:M; [|exact IH].
  destruct (group 1 m) as [t|] eqn:Gr; [|exact IH].
  destruct (JsString.truthy t); [|exact IH].
  intros [= <-].
  apply (String_match_sound (meta_pattern attribute value) _ html m eq_refl
           (groups_good_meta_pattern attribute value)) in M
    as (_ & _ & _ & _ & C).
  exact (group_good _ _ _ _ C Gr).
Qed.

Lemma string_or_null_text patterns html :
  Forall (λ re, ∃ attribute value, re = meta_pattern attribute value) patterns →
  null_or_text not_quote (string_or_null (first_pattern_match patterns html)).
Proof.
  intros F. destruct (first_pattern_match patterns html) as [g|] eqn:E; [|left; reflexivity].
  right. exists g. split; [reflexivity|]. exact (first_pattern_match_text _ _ _ F E).
Qed.

(** X2: the object [extractMicrodata] returns has the three fields phone,
    website and address; each is [null] or a non-empty string without
    quote characters, and at least one is a string. *)
Theorem extractMicrodata_shape (html : string) (data : gmap string json) :
  extractMicrodata html = Some data →
  ∃ phone website address,
    data = <["phone" := phone]> (<["website" := website]> (<["address" := address]> ∅))
    ∧ null_or_text not_quote phone ∧ null_or_text not_quote website
    ∧ null_or_text not_quote address
    ∧ ¬ (phone = JNull ∧ website = JNull ∧ address = JNull).
Proof.
  unfold extractMicrodata.
  assert (∀ l, l = phonePatterns ∨ l = websitePatterns ∨ l = addressPatterns →
               null_or_text not_quote (string_or_null (first_pattern_match l html))) as T.
  { intros l H. apply string_or_null_text.
    destruct H as [-> | [-> | ->]]; repeat constructor; eauto. }
  pose proof (T phonePatterns (or_introl eq_refl)) as Tp.
  pose proof (T websitePatterns (or_intror (or_introl eq_refl))) as Tw.
  pose proof (T addressPatterns (or_intror (or_intror eq_refl))) as Ta.
  clear T. cbv zeta.
  generalize dependent (string_or_null (first_pattern_match phonePatterns html)).
  generalize dependent (string_or_null (first_pattern_match websitePatterns html)).
  generalize dependent (string_or_null (first_pattern_match addressPatterns html)).
  intros address Ta website Tw phone Tp.
  destruct (negb (Js.truthy phone) && negb (Js.truthy website)
            && negb (Js.truthy address)) eqn:N; [discriminate|].
  intros [= <-]. exists phone, website, address. split; [reflexivity|].
  repeat split; try assumption.
  intros (-> & -> & ->). discriminate N.
Qed.

Lemma extractPhoneRegex_shape_witness :
  RegexLang.all_chars phone_char "303-555-0100" = true
  ∧ 10 ≤ String.length "303-555-0100" ≤ 17.
Proof.
  destruct (extractPhoneRegex_shape "call 303-555-0100 now" "303-555-0100")
    as (_ & A & _ & L); [vm_compute; reflexivity|].
  exact (conj A L).
Defined.

Lemma extractMicrodata_shape_witness :
  ∃ phone website address,
    (<["phone" := JNull]>
       (<["website" := JStr "https://joes.example/"]> (<["address" := JNull]> ∅))
     : gmap string json)
    = <["phone" := phone]> (<["website" := website]> (<["address" := address]> ∅))
    ∧ null_or_text not_quote phone ∧ null_or_text not_quote website
    ∧ null_or_text not_quote address
    ∧ ¬ (phone = JNull ∧ website = JNull ∧ address = JNull).
Proof.
  apply (extractMicrodata_shape page_metadata_only). vm_compute; reflexivity.
Defined.

(** ** Matches of [exec] *)

Lemma groups_good_True ic r : RegexLang.groups_good ic (λ _ _, True) r.
Proof. induction r; cbn; auto. Qed.

Lemma length_drop_le n : ∀ s, String.length (drop n s) ≤ String.length s.
Proof.
  induction n as [|n IH]; intros [|x s]; cbn; try lia.
  specialize (IH s). lia.
Qed.

Lemma exec_sound re good s lastIndex m :
  RegexLang.groups_good (ignoreCase re) good (pattern re) →
  exec re s lastIndex = Some m →
  RegexLang.lang (ignoreCase re) (pattern re) (matched m)
  ∧ RegexLang.caps_good good (captures m)
  ∧ String.length (matched m) ≤ String.length s.
Proof.
  unfold exec. intros G. destruct (Nat.ltb _ _); [discriminate|].
  intros H. apply (search_from_sound re good) in H as (b & a & S & _ & _ & L & C);
    [|exact G].
  repeat split; [exact L|exact C|].
  pose proof (length_drop_le (if global re then lastIndex else 0) s) as D.
  rewrite S, !length_append in D. lia.
Qed.

(** An input shorter than every text the pattern takes has no match. *)
Lemma exec_short re s lastIndex :
  String.length s < RegexLang.min_count (ignoreCase re) (λ _, true) (pattern re) →
  exec re s lastIndex = None.
Proof.
  intros H. destruct (exec re s lastIndex) as [m|] eqn:E; [|reflexivity].
  apply (exec_sound re (λ _ _, True)) in E as (L & _ & Le);
    [|apply groups_good_True].
  apply (lang_count _ (λ _, true)) in L as [Lo _].
  rewrite count_all_length in Lo. lia.
Qed.

Lemma exec_shorter re s lastIndex n :
  String.length s < n →
  Nat.leb n (RegexLang.min_count (ignoreCase re) (λ _, true) (pattern re)) = true →
  exec re s lastIndex = None.
Proof. intros H Le%Nat.leb_le. apply exec_short. lia. Qed.

(** A match of [phoneRegex] has at least ten characters. *)
Lemma phoneRegex_match_length text m :
  String_match text phoneRegex = Some m → 10 ≤ String.length (matched m).
Proof.
  intros M.
  apply (exec_sound phoneRegex (λ _ _, True)) in M as (L & _ & _);
    [|apply groups_good_True].
  apply (lang_count _ (λ _, true)) in L as [Lo _].
  rewrite count_all_length in Lo.
  assert (RegexLang.min_count false (λ _, true) (pattern phoneRegex) = 10) as E
    by (vm_compute; reflexivity).
  cbn [ignoreCase phoneRegex] in Lo, E. rewrite E in Lo. exact Lo.
Qed.

(** X3: [extractWithRegex] returns an object exactly when
    [extractPhoneRegex] finds a number; the number is not empty, it is the
    object's phone, and the website and the address are [null]. *)
Theorem extractWithRegex_phone (html : string) :
  match extractPhoneRegex html with
  | Some phone =>
      phone ≠ ""
      ∧ extractWithRegex html
        = Some (<["phone" := JStr phone]>
                (<["website" := JNull]> (<["address" := JNull]> ∅)))
  | None => extractWithRegex html = None
  end.
Proof.
  unfold extractWithRegex, extractPhoneRegex.
  destruct (String_match html phoneRegex) as [m|] eqn:M; [|reflexivity].
  apply phoneRegex_match_length in M.
  destruct (matched m) as [|x w] eqn:E; [cbn in M; lia|].
  split; [discriminate|reflexivity].
Qed.

Lemma groups_good_urlRegex :
  RegexLang.groups_good true
    (λ _ g, g ≠ "" ∧ RegexLang.all_chars not_quote_amp g = true)
    (pattern urlRegex).
Proof.
  assert (∀ t, RegexLang.lang true (plus (NoneOf ["034"; "'"; "&"]%char)) t →
               t ≠ "" ∧ RegexLang.all_chars not_quote_amp t = true) as P.
  { intros t L. apply (lang_plus true (NoneOf ["034"; "'"; "&"]%char) not_quote_amp t);
      [vm_compute; reflexivity|exact L]. }
  cbn -[plus lit]. repeat split; try apply groups_good_lit; apply P; assumption.
Qed.

Section SearchFacts.

Variable decodeURIComponent : string → option string.

(** X4: when a search response has loaded, [googleSearch] calls back in
    one of three ways: with the decoding of a text that is not empty and
    has no quote and no ampersand, with the URIError of the decoding, or
    with the error 'No results'. *)
Theorem googleSearch_onload_outcomes (html : string) :
  (∃ g url, g ≠ "" ∧ RegexLang.all_chars not_quote_amp g = true
            ∧ decodeURIComponent g = Some url
            ∧ googleSearch_callback decodeURIComponent (Onload html)
              = Some (None, Some url))
  ∨ (∃ g, g ≠ "" ∧ RegexLang.all_chars not_quote_amp g = true
          ∧ decodeURIComponent g = None
          ∧ googleSearch_callback decodeURIComponent (Onload html)
            = Some (Some URIError, None))
  ∨ googleSearch_callback decodeURIComponent (Onload html)
    = Some (Some (Error "No results"), None).
Proof.
  cbn [googleSearch_callback].
  destruct (String_match html urlRegex) as [m|] eqn:M; [|auto].
  destruct (group 1 m) as [g|] eqn:Gr; [|auto].
  apply (exec_sound urlRegex _ html 0 m groups_good_urlRegex) in M as (_ & C & _).
  destruct (group_good _ _ _ _ C Gr) as [N A].
  destruct (JsString.truthy g); [|auto].
  destruct (decodeURIComponent g) as [url|] eqn:D.
  - left. exists g, url. auto.
  - right. left. exists g. auto.
Qed.

End SearchFacts.

Section ShortResponses.

Variable JSON_parse : string → option json.
Variable decodeURIComponent : string → option string.

Lemma first_pattern_match_short patterns html n :
  String.length html < n →
  forallb (λ re, Nat.leb n (RegexLang.min_count (ignoreCase re) (λ _, true) (pattern re)))
          patterns = true →
  first_pattern_match patterns html = None.
Proof.
  intros H. induction patterns as [|re patterns IH]; [reflexivity|].
  cbn [forallb first_pattern_match]. intros [Le F]%andb_true_iff.
  unfold String_match. rewrite (exec_shorter re html 0 n H Le). auto.
Qed.

(** X5: a response too short to hold a result link or a phone number.  A
    search response of fewer than 17 characters makes [googleSearch] call
    back with 'No results'; for a page of fewer than 10 characters
    [scrapeWebsite] calls back with the object that has the method 'None'
    and the source URL only. *)
Theorem short_responses (url html : string) :
  (String.length html < 17 →
   googleSearch_callback decodeURIComponent (Onload html)
   = Some (Some (Error "No results"), None))
  ∧ (String.length html < 10 →
     scrapeWebsite_callback JSON_parse url (Onload html)
     = (None, Some (<["sourceUrl" := JStr url]> (<["method" := JStr "None"]> ∅)))).
Proof.
  split; intros H.
  - cbn [googleSearch_callback]. unfold String_match.
    rewrite (exec_shorter urlRegex html 0 17 H); [reflexivity|vm_compute; reflexivity].
  - cbn [scrapeWebsite_callback]. rewrite scrape_response_cases.
    assert (extractSchemaOrg JSON_parse html = None) as ->.
    { unfold extractSchemaOrg. cbn [schema_loop].
      rewrite (exec_shorter scriptRegex html 0 10 H); [reflexivity|vm_compute; reflexivity]. }
    assert (extractMicrodata html = None) as ->.
    { unfold extractMicrodata.
      rewrite !(first_pattern_match_short _ html 10 H) by (vm_compute; reflexivity).
      reflexivity. }
    assert (extractWithRegex html = None) as ->.
    { unfold extractWithRegex, extractPhoneRegex, String_match.
      rewrite (exec_shorter phoneRegex html 0 10 H); [reflexivity|vm_compute; reflexivity]. }
    reflexivity.
Qed.

End ShortResponses.

(** The two bounds are met: a text of 17 characters with a result link,
    a page of 10 digits. *)
Lemma short_responses_witness :
  googleSearch_callback ReferenceHost.decodeURIComponent (Onload "")
  = Some (Some (Error "No results"), None)
  ∧ scrapeWebsite_callback ReferenceHost.JSON_parse "https://joes.example/" (Onload "call us")
    = (None, Some (<["sourceUrl" := JStr "https://joes.example/"]>
                   (<["method" := JStr "None"]> ∅))).
Proof.
  pose proof (short_responses ReferenceHost.JSON_parse ReferenceHost.decodeURIComponent
                "https://joes.example/" "") as [S _].
  pose proof (short_responses ReferenceHost.JSON_parse ReferenceHost.decodeURIComponent
                "https://joes.example/" "call us") as [_ P].
  split; [apply S; cbn; lia|apply P; cbn; lia].
Defined.

Example responses_at_the_bounds :
  googleSearch_callback ReferenceHost.decodeURIComponent (Onload "<ahref='/url?q=x'")
  = Some (None, Some "x")
  ∧ scrapeWebsite_callback ReferenceHost.JSON_parse "u" (Onload "3035550100")
    = (Some (TypeError "Assignment to constant variable."), None).
Proof. split; vm_compute; reflexivity. Qed.

(** ** Items and declared types of a script block *)

Lemma includes_array l needle :
  existsb (λ x, match x with JStr s => String.eqb s needle | _ => false end) l = true
  ↔ JStr needle ∈ l.
Proof.
  rewrite existsb_exists. split.
  - intros (x & In & E). destruct x; try discriminate.
    apply String.eqb_eq in E as ->. apply list_elem_of_In, In.
  - intros In. exists (JStr needle). split; [apply list_elem_of_In, In|].
    apply String.eqb_refl.
Qed.

Lemma elem_of_business_names n :
  n ∈ business_names
  ↔ n = "LocalBusiness" ∨ n = "Restaurant" ∨ n = "Organization" ∨ n = "Store".
Proof.
  unfold business_names. rewrite !elem_of_cons, elem_of_nil. tauto.
Qed.

Lemma or_else_Normal a b c d :
  or_else (Normal a) (or_else (Normal b) (or_else (Normal c) (Normal d)))
  = Normal (a || b || c || d).
Proof. destruct a, b, c, d; reflexivity. Qed.

Lemma exists_business_name (P : string → Prop) :
  (∃ n, n ∈ business_names ∧ P n)
  ↔ P "LocalBusiness" ∨ P "Restaurant" ∨ P "Organization" ∨ P "Store".
Proof.
  split.
  - intros (n & In & H).
    apply elem_of_business_names in In as [->|[->|[->| ->]]]; tauto.
  - intros [H|[H|[H|H]]]; eexists; (split; [|exact H]);
      apply elem_of_business_names; tauto.
Qed.

Lemma is_business_type_cases t :
  is_business_type (Some t) =
  match t with
  | JNull => Normal false
  | JBool b =>
      if b then Throw (TypeError "type.includes is not a function") else Normal false
  | JNum q =>
      if Qeq_bool q 0 then Normal false
      else Throw (TypeError "type.includes is not a function")
  | JStr s => Normal (business_type_name s)
  | JArr l =>
      Normal (existsb (λ n, existsb (λ x, match x with
                                           | JStr s => String.eqb s n
                                           | _ => false
                                           end) l) business_names)
  | JObj _ => Throw (TypeError "type.includes is not a function")
  end.
Proof.
  destruct t as [|b|q|s|l|props]; cbn [is_business_type Js.truthy Js.includes].
  - reflexivity.
  - destruct b; reflexivity.
  - destruct (Qeq_bool q 0); reflexivity.
  - destruct s as [|x s]; [reflexivity|]. cbn [JsString.truthy JsString.is_empty_string negb].
    rewrite or_else_Normal. reflexivity.
  - rewrite or_else_Normal. cbn [business_names existsb]. rewrite orb_false_r, !orb_assoc.
    reflexivity.
  - reflexivity.
Qed.

(** X6: the test on the declared type.  It holds exactly for the
    qualifying types; it throws exactly for the types that are truthy and
    neither string nor array; it is false otherwise, an absent type
    included. *)
Theorem is_business_type_spec (type : option json) :
  (is_business_type type = Normal true ↔ ∃ t, type = Some t ∧ qualifying_type t)
  ∧ ((∃ e, is_business_type type = Throw e)
     ↔ ∃ t, type = Some t ∧ uncallable_type t).
Proof.
  destruct type as [t|].
  2: { split; split; cbn; try discriminate; try (intros (? & [=] & _));
         intros (? & [=]). }
  rewrite is_business_type_cases.
  assert (∀ P : json → Prop, (∃ t', Some t = Some t' ∧ P t') ↔ P t) as Ex.
  { intros P. split; [intros (? & [= <-] & H); exact H|eauto]. }
  rewrite !Ex. clear Ex.
  destruct t as [|b|q|s|l|props]; cbn [qualifying_type uncallable_type].
  - split; split; try discriminate; try tauto. intros (? & [=]).
  - destruct b; split; split; try discriminate; try tauto; eauto; intros (? & [=]).
  - destruct (Qeq_bool q 0) eqn:Z.
    + apply Qeq_bool_eq in Z. split; split; try discriminate; try tauto.
      intros (? & [=]).
    + apply Qeq_bool_neq in Z. split; split; try discriminate; try tauto; eauto.
  - split; [|split; [intros (? & [=])|tauto]].
    rewrite exists_business_name. unfold business_type_name.
    split.
    + intros [= H]. rewrite !orb_true_iff in H. tauto.
    + intros H. f_equal. rewrite !orb_true_iff. tauto.
  - split; [|split; [intros (? & [=])|tauto]].
    rewrite exists_business_name, <- !includes_array.
    cbn [business_names existsb]. rewrite orb_false_r. split.
    + intros [= H]. rewrite !orb_true_iff in H. tauto.
    + intros H. f_equal. rewrite !orb_true_iff. tauto.
  - split; split; try discriminate; try tauto; eauto.
Qed.

Lemma or_null_cases v : Js.or_null v = JNull ∨ Js.truthy (Js.or_null v) = true.
Proof.
  destruct v as [j|]; cbn; [|auto]. destruct (Js.truthy j) eqn:T; auto.
Qed.

Section SchemaFacts.

Variable JSON_parse : string → option json.

Lemma schema_items_sound items data :
  schema_items items = Normal (Some data) →
  ∃ item, JObj item ∈ items
          ∧ is_business_type (Js.own_property "@type" item) = Normal true
          ∧ data = mapped_fields item.
Proof.
  induction items as [|item items IH]; cbn [schema_items]; [discriminate|].
  destruct item as [|b|q|s|l|props]; cbn; try discriminate;
    try (intros H; destruct (IH H) as (it & In & Q); exists it;
         split; [right; exact In|exact Q]).
  destruct (is_business_type (Js.own_property "@type" props)) as [[|]|e] eqn:B;
    cbn; [| |discriminate].
  - intros [= <-]. exists props. split; [left|]. auto.
  - intros H; destruct (IH H) as (it & In & Q); exists it.
    split; [right; exact In|exact Q].
Qed.

Lemma first_business_block_sound blocks data :
  first_business_block JSON_parse blocks = Some data →
  ∃ block, block ∈ blocks ∧ schema_block JSON_parse block = Normal (Some data).
Proof.
  induction blocks as [|b blocks IH]; cbn [first_business_block]; [discriminate|].
  destruct (schema_block JSON_parse b) as [[fields|]|e] eqn:B.
  - intros [= <-]. exists b. split; [left|exact B].
  - intros H. destruct (IH H) as (block & In & Q). exists block. split; [right; exact In|exact Q].
  - intros H. destruct (IH H) as (block & In & Q). exists block. split; [right; exact In|exact Q].
Qed.

(** X7: what [extractSchemaOrg] returns comes from an object among the
    items of a script block of the page that [JSON.parse] accepts, whose
    declared type qualifies; it has the four fields phone, website, address
    and name, mapped from that object, each [null] or a truthy value. *)
Theorem extractSchemaOrg_sound (html : string) (data : gmap string json) :
  extractSchemaOrg JSON_parse html = Some data →
  ∃ block parsed item type,
    block ∈ ld_json_blocks html
    ∧ JSON_parse block = Some parsed
    ∧ JObj item ∈ items_of parsed
    ∧ Js.own_property "@type" item = Some type ∧ qualifying_type type
    ∧ data = mapped_fields item
    ∧ ∀ key, (key ∈ schema_keys ↔ is_Some (data !! key))
             ∧ ∀ v, data !! key = Some v → v = JNull ∨ Js.truthy v = true.
Proof.
  rewrite extractSchemaOrg_first_block. intros H.
  apply first_business_block_sound in H as (block & In & B).
  unfold schema_block in B.
  destruct (JSON_parse block) as [parsed|] eqn:P; [|discriminate].
  apply schema_items_sound in B as (item & It & Q & ->).
  destruct (Js.own_property "@type" item) as [type|] eqn:T; [|discriminate].
  rewrite is_business_type_cases in Q.
  assert (qualifying_type type) as QT.
  { destruct type as [|b|q|s|l|props]; cbn [qualifying_type]; try discriminate.
    - destruct b; discriminate.
    - destruct (Qeq_bool q 0); discriminate.
    - apply exists_business_name. injection Q as Q. unfold business_type_name in Q.
      rewrite !orb_true_iff in Q. tauto.
    - apply exists_business_name. rewrite <- !includes_array. injection Q as Q.
      cbn [business_names existsb] in Q. rewrite orb_false_r, !orb_true_iff in Q. tauto. }
  exists block, parsed, item, type. repeat split; try assumption.
  - unfold schema_keys. rewrite !elem_of_cons, elem_of_nil.
    intros [->|[->|[->|[->|[]]]]]; vm_compute; eauto.
  - unfold mapped_fields, schema_keys. rewrite !elem_of_cons.
    intros [v L]. rewrite !lookup_insert_Some in L. rewrite lookup_empty in L.
    destruct L as [[<- _]|[_ [[<- _]|[_ [[<- _]|[_ [[<- _]|[_ [=]]]]]]]]]; auto.
  - intros v. unfold mapped_fields. rewrite !lookup_insert_Some, lookup_empty.
    intros [[_ <-]|[_ [[_ <-]|[_ [[_ <-]|[_ [[_ <-]|[_ [=]]]]]]]]]; apply or_null_cases.
Qed.

Lemma schema_items_throws pre bad post :
  Forall passed_over pre → throwing_item bad →
  ∃ e, schema_items (pre ++ bad :: post) = Throw e.
Proof.
  intros F T. induction F as [|item pre (type & G & B) _ IH]; cbn [app schema_items].
  - destruct T as [->|(props & t & -> & O & U)]; [cbn; eauto|].
    cbn [Js.get]. cbn. rewrite O.
    rewrite is_business_type_cases.
    destruct t as [|b|q|s|l|props']; cbn in U; try contradiction.
    + subst b. cbn. eauto.
    + destruct (Qeq_bool q 0) eqn:Z; [apply Qeq_bool_eq in Z; contradiction|].
      cbn. eauto.
    + cbn. eauto.
  - rewrite G. cbn. rewrite B. cbn. exact IH.
Qed.

(** X8: an item at which the loop throws ends the processing of its script
    block: when the items before it are passed over, the block yields
    nothing, whatever follows the item in it, and [extractSchemaOrg] goes
    on as if the block were not there. *)
Theorem extractSchemaOrg_item_throws (html : string) (before after : list string)
    (block : string) (pre post : list json) (bad : json) :
  ld_json_blocks html = before ++ block :: after →
  JSON_parse block = Some (JArr (pre ++ bad :: post)) →
  Forall passed_over pre → throwing_item bad →
  extractSchemaOrg JSON_parse html
  = first_business_block JSON_parse (before ++ after).
Proof.
  intros Bl P F T. rewrite extractSchemaOrg_first_block, Bl.
  destruct (schema_items_throws pre bad post F T) as [e E].
  clear Bl. induction before as [|b before IH]; cbn [app first_business_block].
  - unfold schema_block. rewrite P, E. reflexivity.
  - rewrite IH. reflexivity.
Qed.

End SchemaFacts.

(** On a page whose block is an array with a person, [null] and a
    restaurant nothing is extracted; without the [null] the restaurant is. *)
Lemma extractSchemaOrg_item_throws_witness :
  extractSchemaOrg ReferenceHost.JSON_parse page_null_then_restaurant = None
  ∧ extractSchemaOrg ReferenceHost.JSON_parse page_restaurant
    = Some (mapped_fields restaurant_item).
Proof.
  split; [|vm_compute; reflexivity].
  rewrite (extractSchemaOrg_item_throws ReferenceHost.JSON_parse
             page_null_then_restaurant [] []
             (quoted ("[{`@type`:`Person`},null,"
                      +:+ "{`@type`:`Restaurant`,`telephone`:`303-555-0100`}]"))
             [JObj [("@type", JStr "Person")]] [JObj restaurant_item] JNull).
  - reflexivity.
  - vm_compute; reflexivity.
  - vm_compute; reflexivity.
  - repeat constructor. exists (Some (JStr "Person")). split; vm_compute; reflexivity.
  - left; reflexivity.
Defined.

Lemma extractSchemaOrg_sound_witness :
  ∃ block parsed item type,
    block ∈ ld_json_blocks page_restaurant
    ∧ ReferenceHost.JSON_parse block = Some parsed
    ∧ JObj item ∈ items_of parsed
    ∧ Js.own_property "@type" item = Some type ∧ qualifying_type type
    ∧ mapped_fields restaurant_item = mapped_fields item
    ∧ ∀ key, (key ∈ schema_keys ↔ is_Some (mapped_fields restaurant_item !! key))
             ∧ ∀ v, mapped_fields restaurant_item !! key = Some v →
                    v = JNull ∨ Js.truthy v = true.
Proof.
  apply (extractSchemaOrg_sound ReferenceHost.JSON_parse page_restaurant
           (mapped_fields restaurant_item)).
  vm_compute; reflexivity.
Defined.

(** ** Presentation and statistics *)

(** X9: the four severities have four different labels and four different
    colours, and only a number that is no severity gets the label 'Unknown'
    or the grey colour. *)
Theorem severity_presentation :
  (∀ s s', getSeverityLabel (severity_value s) = getSeverityLabel (severity_value s')
           → s = s')
  ∧ (∀ s s', getSeverityColor (severity_value s) = getSeverityColor (severity_value s')
             → s = s')
  ∧ (∀ n, getSeverityLabel n = "Unknown" ↔ ∀ s, severity_value s ≠ n)
  ∧ (∀ n, getSeverityColor n = "#9E9E9E" ↔ ∀ s, severity_value s ≠ n).
Proof.
  split; [|split; [|split]].
  - intros [] []; cbn; intros H; try reflexivity; discriminate H.
  - intros [] []; cbn; intros H; try reflexivity; discriminate H.
  - intros n. split.
    + intros H [] <-; discriminate H.
    + intros H. destruct n as [|[|[|[|n]]]]; [exfalso..|reflexivity].
      * exact (H COMPLETE eq_refl).
      * exact (H MINOR eq_refl).
      * exact (H MAJOR eq_refl).
      * exact (H CRITICAL eq_refl).
  - intros n. split.
    + intros H [] <-; discriminate H.
    + intros H. destruct n as [|[|[|[|n]]]]; [exfalso..|reflexivity].
      * exact (H COMPLETE eq_refl).
      * exact (H MINOR eq_refl).
      * exact (H MAJOR eq_refl).
      * exact (H CRITICAL eq_refl).
Qed.

(** ** The analyzer's result *)

(** X10: the three fields of an analysis agree with one another. *)
Theorem analyzeVenue_consistent (v : Venue) :
  let a := analyzeVenue v in
  sublist (missing a) ["Name"; "Phone"; "Website"]
  ∧ (hasContactInfo a = false ↔ "Phone" ∈ missing a ∧ "Website" ∈ missing a)
  ∧ (severity a = COMPLETE ↔ missing a = [])
  ∧ (severity a = CRITICAL ↔ hasContactInfo a = false)
  ∧ (severity a = MAJOR
     ↔ "Name" ∈ missing a ∧ length (missing a) = 2 ∧ hasContactInfo a = true)
  ∧ (severity a = MINOR ↔ length (missing a) = 1 ∧ hasContactInfo a = true).
Proof.
  cbv zeta.
  assert (severity (analyzeVenue v)
          = if Nat.eqb (length (missing (analyzeVenue v))) 0 then COMPLETE
            else if negb (hasContactInfo (analyzeVenue v)) then CRITICAL
            else if Nat.leb 2 (length (missing (analyzeVenue v))) then MAJOR
            else MINOR) as -> by reflexivity.
  rewrite analyzeVenue_hasContactInfo, analyzeVenue_missing.
  destruct (isEmpty (attr_name (attributes v))), (isEmpty (attr_phone (attributes v))),
    (isEmpty (attr_url (attributes v))); cbn;
    (split; [repeat (first [apply sublist_nil|apply sublist_skip|apply sublist_cons])|]);
    rewrite ?elem_of_cons, ?elem_of_nil;
    repeat split; try discriminate; try tauto; try lia; try (intros; exfalso; intuition congruence).
Qed.

(** ** The scan *)

Lemma venue_record_partition venue :
  venue_record venue = eligible venue || counted_skipped venue
  ∧ eligible venue && counted_skipped venue = false.
Proof.
  destruct venue as [v|]; cbn; [|auto].
  destruct (String.eqb (venue_type v) "venue"), (unnamed _), (hasExcludedCategory _);
    auto.
Qed.

Lemma length_stored vs : length (stored vs) = length (filter eligible vs).
Proof.
  unfold stored. induction vs as [|venue vs IH]; [reflexivity|]. cbn.
  destruct (eligible venue) eqn:E; [|exact IH].
  destruct venue as [v|]; [|discriminate]. cbn. rewrite IH. reflexivity.
Qed.

(** X11: a scan counts every venue record once, as scanned or as skipped;
    records that are no venue are in neither count.  The scan returns the
    first count. *)
Theorem scanLoadedVenues_counts (model : WazeModel) (st : State) :
  let out := scanLoadedVenues (Some model) st in
  ∃ skipped,
    console out = Scanned (returned out) skipped
    ∧ returned out + skipped = length (filter venue_record (venues model))
    ∧ length (heap (after_scan out)) = length (heap st) + returned out.
Proof.
  cbv zeta. rewrite scanLoadedVenues_eq. cbn.
  eexists. split; [reflexivity|]. split.
  - rewrite length_stored. induction (venues model) as [|venue vs IH]; [reflexivity|].
    rewrite !filter_cons. destruct (venue_record_partition venue) as [-> D].
    destruct (eligible venue), (counted_skipped venue); try discriminate;
      repeat case_decide; cbn in *; try tauto; lia.
  - rewrite length_app, length_map. reflexivity.
Qed.

(** X12: the entry stored for a venue.  Its name is the venue's own name,
    which is not blank; the name is never among its missing fields; and its
    missing fields, severity and contact flag are one of four combinations. *)
Theorem stored_entry_fields (location : Location) (v : Venue) :
  eligible (Some v) = true →
  let e := entry_for location v in
  attr_name (attributes v) = Some (entry_name e)
  ∧ JsString.all_white (entry_name e) = false
  ∧ hasExcludedCategory (entry_categories e) = false
  ∧ entry_location e = location
  ∧ entry_extracted e = None
  ∧ ((entry_missing e = [] ∧ entry_severity e = COMPLETE
      ∧ entry_hasContactInfo e = true)
     ∨ (entry_missing e = ["Phone"] ∧ entry_severity e = MINOR
        ∧ entry_hasContactInfo e = true)
     ∨ (entry_missing e = ["Website"] ∧ entry_severity e = MINOR
        ∧ entry_hasContactInfo e = true)
     ∨ (entry_missing e = ["Phone"; "Website"] ∧ entry_severity e = CRITICAL
        ∧ entry_hasContactInfo e = false)).
Proof.
  cbn [eligible]. intros [[_ N]%andb_true_iff X]%andb_true_iff.
  apply negb_true_iff in N, X. cbv zeta.
  unfold entry_for, new_entry. cbn [entry_name entry_categories entry_location
    entry_extracted entry_missing entry_severity entry_hasContactInfo].
  assert (severity (analyzeVenue v)
          = if Nat.eqb (length (missing (analyzeVenue v))) 0 then COMPLETE
            else if negb (hasContactInfo (analyzeVenue v)) then CRITICAL
            else if Nat.leb 2 (length (missing (analyzeVenue v))) then MAJOR
            else MINOR) as -> by reflexivity.
  rewrite analyzeVenue_hasContactInfo, analyzeVenue_missing.
  pose proof N as N'. rewrite unnamed_isEmpty in N'. rewrite N'.
  destruct (attr_name (attributes v)) as [name|]; [|discriminate].
  cbn in N, N'. rewrite trim_empty in N'.
  destruct name as [|x name]; [discriminate|]. cbn [JsString.or_default JsString.truthy
    JsString.is_empty_string negb].
  repeat split; try assumption.
  destruct (isEmpty (attr_phone (attributes v))), (isEmpty (attr_url (attributes v)));
    cbn; tauto.
Qed.

Lemma stored_entry_fields_witness :
  attr_name (attributes joes_cafe) = Some "Joe's Cafe"
  ∧ entry_missing (entry_for no_location joes_cafe) = ["Phone"; "Website"]
  ∧ entry_severity (entry_for no_location joes_cafe) = CRITICAL.
Proof.
  destruct (stored_entry_fields no_location joes_cafe) as (N & _ & _ & _ & _ & C);
    [reflexivity|].
  split; [exact N|]. split; reflexivity.
Defined.

(** X13: a scan leaves the in-flight set and the pending requests as they
    are, so a venue whose extraction is in flight stays blocked in the new
    result set: the extract button for it does nothing. *)
Theorem rescan_keeps_in_flight (W : option WazeModel) (st : State) (id : string) :
  id ∈ extractionInProgress st →
  extractionInProgress (handleScanClick W st) = extractionInProgress st
  ∧ requests (handleScanClick W st) = requests st
  ∧ extractVenueData id (handleScanClick W st) = handleScanClick W st.
Proof.
  intros In.
  assert (extractionInProgress (handleScanClick W st) = extractionInProgress st) as E
    by (unfold handleScanClick; rewrite scanLoadedVenues_eq; reflexivity).
  split; [exact E|]. split.
  - unfold handleScanClick; rewrite scanLoadedVenues_eq; reflexivity.
  - apply extractVenueData_marked. rewrite E. exact In.
Qed.

Lemma rescan_keeps_in_flight_witness :
  let st := extractVenueData "v1" denver_scanned in
  scannedVenues (handleScanClick denver st) !! "v1" = Some 1
  ∧ extractVenueData "v1" (handleScanClick denver st) = handleScanClick denver st.
Proof.
  split; [vm_compute; reflexivity|].
  apply (rescan_keeps_in_flight denver (extractVenueData "v1" denver_scanned) "v1").
  by_decide.
Defined.

(** ** The location context *)

(** X14: the location comes from the first loaded city alone, and a query
    gets its location part exactly when that city has a name and belongs to
    a state the model knows by a non-zero id and with an abbreviation. *)
Theorem getVenueLocation_first_city (model : WazeModel) :
  let location := getVenueLocation model in
  location = getVenueLocation (first_city_only model)
  ∧ (cities model = None ∨ cities model = Some [] → location = no_location)
  ∧ (JsString.truthy (cityName location) && JsString.truthy (stateAbbr location) = true
     ↔ located model)
  ∧ (¬ located model →
     ∀ name categories,
       buildSearchQuery name categories (cityName location) (stateAbbr location)
       = buildSearchQuery name categories "" "").
Proof.
  cbv zeta.
  assert (JsString.truthy (cityName (getVenueLocation model))
          && JsString.truthy (stateAbbr (getVenueLocation model)) = true
          ↔ located model) as L.
  { unfold getVenueLocation, located.
    destruct (cities model) as [[|city others]|] eqn:C; cbn.
    - split; [discriminate|]. intros (? & ? & ? & ? & ? & [=] & _).
    - rewrite andb_true_iff, !truthy_nonempty. split.
      + intros [N A].
        destruct (city_name city) as [name|] eqn:Cn; [|contradiction].
        cbn in N. destruct (JsString.truthy name) eqn:T; [|contradiction].
        destruct (city_stateID city) as [stateID|] eqn:Cs; [|contradiction].
        destruct (Z.eqb stateID 0) eqn:Z; [contradiction|].
        destruct (states model !! stateID) as [state|] eqn:S; [|contradiction].
        apply Z.eqb_neq in Z.
        exists city, others, name, stateID, state. auto 10.
      + intros (c & o & name & stateID & state & [= <- <-] & Cn & N & Cs & Z & S & A).
        rewrite Cn, Cs. apply Z.eqb_neq in Z. rewrite Z, S.
        apply truthy_nonempty in N. cbn. rewrite N. apply truthy_nonempty in N. auto.
    - split; [discriminate|]. intros (? & ? & ? & ? & ? & [=] & _). }
  split; [|split; [|split]].
  - unfold getVenueLocation, first_city_only.
    destruct (cities model) as [[|city others]|]; reflexivity.
  - unfold getVenueLocation. intros [-> | ->]; reflexivity.
  - exact L.
  - intros N name categories. unfold buildSearchQuery.
    destruct (JsString.truthy _ && JsString.truthy _); [|reflexivity].
    exfalso. apply N, L. reflexivity.
Qed.

Lemma getVenueLocation_first_city_witness :
  buildSearchQuery "Joe's Cafe" ["CAFE"]
    (cityName (getVenueLocation {| venues := []; cities := None; states := ∅ |}))
    (stateAbbr (getVenueLocation {| venues := []; cities := None; states := ∅ |}))
  = buildSearchQuery "Joe's Cafe" ["CAFE"] "" "".
Proof.
  destruct (getVenueLocation_first_city {| venues := []; cities := None; states := ∅ |})
    as (_ & _ & _ & Q).
  apply Q. intros (? & ? & ? & ? & ? & [=] & _).
Defined.

(** ** Answers and the heap *)

Section AnswerFrame.

Variable JSON_parse : string → option json.
Variable decodeURIComponent : string → option string.

Local Abbreviation respond := (deliver JSON_parse decodeURIComponent).

Lemma store_extracted_lookup ref value st k :
  k ≠ ref → heap (store_extracted ref value st) !! k = heap st !! k.
Proof. intros N. cbn. apply list_lookup_alter_ne. congruence. Qed.

(** An answer leaves the result set as it is and changes no entry object
    but the one its request holds. *)
Lemma deliver_frame st i r ev :
  requests st !! i = Some r →
  scannedVenues (respond i ev st) = scannedVenues st
  ∧ length (heap (respond i ev st)) = length (heap st)
  ∧ ∀ k, k ≠ request_ref r → heap (respond i ev st) !! k = heap st !! k.
Proof.
  intros R. unfold deliver. rewrite R.
  destruct r as [query venueId venueData|websiteUrl query venueId venueData];
    cbn [request_ref].
  - destruct (googleSearch_callback decodeURIComponent ev) as [[searchError url]|];
      [|cbn; auto].
    unfold on_search. destruct (non_null searchError || _); cbn.
    + rewrite length_alter. repeat split. intros k N.
      apply list_lookup_alter_ne. congruence.
    + auto.
  - destruct (scrapeWebsite_callback JSON_parse websiteUrl ev) as [scrapeError data].
    unfold on_scrape. destruct (non_null scrapeError); cbn;
      rewrite length_alter; repeat split; intros k N;
      apply list_lookup_alter_ne; congruence.
Qed.

(** X15: an answer that arrives after a new scan does not reach the new
    result set.  When the entry object a pending request holds was made
    before the scan, the answer changes neither the result set nor any
    entry object of it, whatever the host reports. *)
Theorem answer_after_scan_lost (W : option WazeModel) (st : State) (i : nat)
    (r : Request) (ev : HostEvent) :
  requests st !! i = Some r → request_ref r < length (heap st) →
  let scanned := handleScanClick W st in
  let answered := respond i ev scanned in
  scannedVenues answered = scannedVenues scanned
  ∧ ∀ id ref, scannedVenues scanned !! id = Some ref →
              heap answered !! ref = heap scanned !! ref
              ∧ entry_extracted <$> heap answered !! ref = Some None.
Proof.
  intros R Lt. cbv zeta.
  assert (requests (handleScanClick W st) !! i = Some r) as R'.
  { unfold handleScanClick. rewrite scanLoadedVenues_eq. exact R. }
  destruct (deliver_frame _ i r ev R') as (M & _ & F).
  split; [exact M|]. intros id ref L.
  apply handleScanClick_lookup in L as (j & v & _ & _ & -> & H).
  assert (length (heap st) + j ≠ request_ref r) as Ne by (clear -Lt; lia).
  rewrite (F _ Ne). split; [reflexivity|]. rewrite H. reflexivity.
Qed.

End AnswerFrame.

Lemma answer_after_scan_lost_witness :
  let scanned := handleScanClick denver (extractVenueData "v1" denver_scanned) in
  let answered :=
    deliver ReferenceHost.JSON_parse ReferenceHost.decodeURIComponent 0 Onerror scanned in
  scannedVenues scanned !! "v1" = Some 1
  ∧ entry_extracted <$> heap answered !! 1 = Some None.
Proof.
  split; [vm_compute; reflexivity|].
  destruct (answer_after_scan_lost ReferenceHost.JSON_parse
              ReferenceHost.decodeURIComponent
              denver (extractVenueData "v1" denver_scanned) 0
              (SearchRequest "Joe's Cafe cafe Denver CO" "v1" 0) Onerror eq_refl
              ltac:(vm_compute; lia)) as [_ H].
  destruct (H "v1" 1) as [_ E]; [vm_compute; reflexivity|exact E].
Defined.

(** ** Every run of the script *)

Lemma handleScanClick_eq W st :
  handleScanClick W st =
  {| heap := heap st ++ map (entry_for (location_of W)) (eligible_venues W);
     scannedVenues := insert_all (length (heap st)) (eligible_venues W) ∅;
     extractionInProgress := extractionInProgress st;
     requests := requests st |}.
Proof. unfold handleScanClick. rewrite scanLoadedVenues_eq. reflexivity. Qed.

Lemma set_extracted_fields value e :
  entry_venue (set_extracted value e) = entry_venue e
  ∧ clear_extracted (set_extracted value e) = clear_extracted e
  ∧ search_query (set_extracted value e) = search_query e
  ∧ entry_extracted (set_extracted value e) = Some value.
Proof. repeat split. Qed.

Lemma consistent_initial : consistent initial_state.
Proof.
  constructor; cbn.
  - intros id ref H. rewrite lookup_empty in H. discriminate.
  - intros ref e H. discriminate.
  - intros ref e record H. discriminate.
  - intros r H. inversion H.
  - constructor.
  - intros r H. inversion H.
Qed.

Lemma consistent_scan W st : consistent st → consistent (handleScanClick W st).
Proof.
  intros C.
  assert (∀ ref e, heap (handleScanClick W st) !! ref = Some e →
            heap st !! ref = Some e
            ∨ ∃ v, v ∈ eligible_venues W ∧ e = entry_for (location_of W) v) as New.
  { intros ref e. rewrite handleScanClick_eq. cbn [heap].
    intros [H|[_ H]]%lookup_app_Some; [left; exact H|right].
    apply list_lookup_fmap_Some in H as (v & -> & H).
    exists v. split; [|reflexivity]. exact (list_elem_of_lookup_2 _ _ _ H). }
  constructor.
  - intros id ref L.
    apply handleScanClick_lookup in L as (i & v & _ & Id & _ & H).
    eexists. split; [exact H|exact Id].
  - intros ref e H. apply New in H as [H|(v & In & ->)];
      [exact (entries_scanned st C ref e H)|].
    split; [|exists (location_of W); reflexivity].
    destruct W as [model|]; [|inversion In]. apply elem_of_stored in In. tauto.
  - intros ref e record H. apply New in H as [H|(v & In & ->)];
      [exact (entries_extracted st C ref e record H)|discriminate].
  - rewrite handleScanClick_eq. exact (requests_marked st C).
  - rewrite handleScanClick_eq. exact (requests_exclusive st C).
  - rewrite handleScanClick_eq. cbn [heap requests]. intros r In.
    destruct (requests_bound st C r In) as (e & H & Q).
    exists e. split; [|exact Q]. apply lookup_app_l_Some, H.
Qed.

Lemma consistent_extract venueId st :
  consistent st → consistent (extractVenueData venueId st).
Proof.
  intros C. unfold extractVenueData.
  destruct (scannedVenues st !! venueId) as [ref|] eqn:L; [|exact C].
  destruct (heap st !! ref) as [e|] eqn:H; [|exact C].
  destruct (decide (venueId ∈ extractionInProgress st)) as [|Out]; [exact C|].
  constructor; cbn.
  - exact (refs_valid st C).
  - exact (entries_scanned st C).
  - exact (entries_extracted st C).
  - intros r [In| ->%list_elem_of_singleton]%elem_of_app.
    + apply elem_of_union_r, (requests_marked st C r In).
    + apply elem_of_union_l, elem_of_singleton. reflexivity.
  - rewrite fmap_app. apply NoDup_app. split; [exact (requests_exclusive st C)|].
    split; [|apply NoDup_singleton].
    intros id (r & -> & In)%list_elem_of_fmap S.
    cbn in S. apply list_elem_of_singleton in S.
    apply Out. rewrite <- S. exact (requests_marked st C r In).
  - intros r [In| ->%list_elem_of_singleton]%elem_of_app.
    + exact (requests_bound st C r In).
    + exists e. split; [exact H|reflexivity].
Qed.

Lemma lookup_alter_set_extracted value ref (h : list ScanEntry) k e' :
  alter (set_extracted value) ref h !! k = Some e' →
  ∃ e, h !! k = Some e ∧ (e' = e ∨ (k = ref ∧ e' = set_extracted value e)).
Proof.
  destruct (decide (ref = k)) as [->|N].
  - rewrite list_lookup_alter_eq. destruct (h !! k) as [e|]; [|discriminate].
    intros [= <-]. eauto.
  - rewrite list_lookup_alter_ne by exact N. eauto.
Qed.

Lemma lookup_alter_set_extracted_2 value ref (h : list ScanEntry) k e :
  h !! k = Some e →
  ∃ e', alter (set_extracted value) ref h !! k = Some e'
        ∧ search_query e' = search_query e.
Proof.
  intros H. destruct (decide (ref = k)) as [->|N].
  - rewrite list_lookup_alter_eq, H. eauto.
  - rewrite list_lookup_alter_ne by exact N. eauto.
Qed.

(** A request that has been answered is gone; the others stay as they
    were, and none of them works for the same identity. *)
Lemma consistent_drop st i r :
  consistent st → requests st !! i = Some r →
  consistent (set_requests (delete i (requests st)) st)
  ∧ ∀ r', r' ∈ delete i (requests st) → request_id r' ≠ request_id r.
Proof.
  intros C R.
  pose proof (requests_exclusive st C) as N.
  rewrite (delete_Permutation _ _ _ R), fmap_cons in N.
  apply NoDup_cons in N as [Out N].
  split.
  - constructor; cbn.
    + exact (refs_valid st C).
    + exact (entries_scanned st C).
    + exact (entries_extracted st C).
    + intros r' In%list_elem_of_delete_inv. exact (requests_marked st C r' In).
    + exact N.
    + intros r' In%list_elem_of_delete_inv. exact (requests_bound st C r' In).
  - intros r' In E. apply Out. rewrite <- E. apply list_elem_of_fmap_2, In.
Qed.

(** [venueData.extracted = value] and the removal of the marker. *)
Lemma consistent_store_finish st id ref value :
  consistent st → (∀ r, r ∈ requests st → request_id r ≠ id) →
  (∀ e, heap st !! ref = Some e → extraction_record (search_query e) value) →
  consistent (finish id (store_extracted ref value st)).
Proof.
  intros C Other V. constructor; cbn.
  - intros id' ref' L. destruct (refs_valid st C id' ref' L) as (e & H & Id).
    destruct (decide (ref = ref')) as [->|N].
    + rewrite list_lookup_alter_eq, H. eexists. split; [reflexivity|exact Id].
    + rewrite list_lookup_alter_ne by exact N. eauto.
  - intros k e' H. apply lookup_alter_set_extracted in H as (e & H & [->|[_ ->]]);
      exact (entries_scanned st C k e H).
  - intros k e' record H E.
    apply lookup_alter_set_extracted in H as (e & H & [->|[-> ->]]).
    + exact (entries_extracted st C k e record H E).
    + injection E as <-. exact (V e H).
  - intros r In. apply elem_of_difference. split; [exact (requests_marked st C r In)|].
    intros S%elem_of_singleton. exact (Other r In S).
  - exact (requests_exclusive st C).
  - intros r In. destruct (requests_bound st C r In) as (e & H & Q).
    destruct (lookup_alter_set_extracted_2 value ref _ _ _ H) as (e' & H' & Q').
    exists e'. split; [exact H'|]. rewrite Q'. exact Q.
Qed.

(** [scrapeWebsite(websiteUrl, ..)] for a marked identity with no other
    pending request. *)
Lemma consistent_fetch st websiteUrl query id ref e :
  consistent st → (∀ r, r ∈ requests st → request_id r ≠ id) →
  id ∈ extractionInProgress st →
  heap st !! ref = Some e → query = search_query e →
  consistent (set_requests (requests st ++ [FetchRequest websiteUrl query id ref]) st).
Proof.
  intros C Other In H Q. constructor; cbn.
  - exact (refs_valid st C).
  - exact (entries_scanned st C).
  - exact (entries_extracted st C).
  - intros r [I|S]%elem_of_app; [exact (requests_marked st C r I)|].
    apply list_elem_of_singleton in S as ->. exact In.
  - rewrite fmap_app. apply NoDup_app. split; [exact (requests_exclusive st C)|].
    split; [|apply NoDup_singleton].
    intros id' (r & -> & I)%list_elem_of_fmap S.
    cbn in S. apply list_elem_of_singleton in S. exact (Other r I S).
  - intros r [I|S]%elem_of_app; [exact (requests_bound st C r I)|].
    apply list_elem_of_singleton in S as ->. exists e. auto.
Qed.

Section AnyRunFacts.

Variable JSON_parse : string → option json.
Variable decodeURIComponent : string → option string.

Lemma extractSchemaOrg_mapped html data :
  extractSchemaOrg JSON_parse html = Some data → ∃ item, data = mapped_fields item.
Proof.
  rewrite extractSchemaOrg_first_block. intros H.
  apply first_business_block_sound in H as (block & _ & B).
  unfold schema_block in B. destruct (JSON_parse block); [|discriminate].
  apply schema_items_sound in B as (item & _ & _ & ->). eauto.
Qed.

(** What [scrapeWebsite] passes to its callback: an error, or an object
    with the method 'Schema.org' or 'None'. *)
Lemma scrapeWebsite_callback_cases websiteUrl ev :
  (∃ error, scrapeWebsite_callback JSON_parse websiteUrl ev = (Some error, None))
  ∨ (∃ item, scrapeWebsite_callback JSON_parse websiteUrl ev
             = (None, Some (<["sourceUrl" := JStr websiteUrl]>
                            (<["method" := JStr "Schema.org"]> (mapped_fields item)))))
  ∨ scrapeWebsite_callback JSON_parse websiteUrl ev
    = (None, Some (<["sourceUrl" := JStr websiteUrl]> (<["method" := JStr "None"]> ∅))).
Proof.
  destruct ev as [html| |]; cbn [scrapeWebsite_callback]; [|eauto..].
  rewrite scrape_response_cases.
  destruct (extractSchemaOrg JSON_parse html) as [data|] eqn:S.
  - apply extractSchemaOrg_mapped in S as [item ->]. right. left. eauto.
  - destruct (extractMicrodata html); [eauto|].
    destruct (extractWithRegex html); [eauto|]. auto.
Qed.

Lemma consistent_answer i ev st :
  consistent st → consistent (deliver JSON_parse decodeURIComponent i ev st).
Proof.
  intros C. unfold deliver.
  destruct (requests st !! i) as [r|] eqn:R; [|exact C].
  destruct (consistent_drop st i r C R) as [C0 Other].
  pose proof (requests_marked st C r (list_elem_of_lookup_2 _ _ _ R)) as In.
  destruct (requests_bound st C r (list_elem_of_lookup_2 _ _ _ R)) as (e & H & Q).
  destruct r as [query venueId venueData|websiteUrl query venueId venueData];
    cbn [request_id request_ref request_query] in *.
  - destruct (googleSearch_callback decodeURIComponent ev) as [[searchError url]|];
      [|exact C0].
    unfold on_search. destruct (non_null searchError || _).
    + apply consistent_store_finish; [exact C0|exact Other|].
      cbn. intros e' H'. rewrite H in H'. injection H' as <-. rewrite Q. constructor.
    + apply (consistent_fetch _ _ _ _ _ e); [exact C0|exact Other|exact In|exact H|exact Q].
  - unfold on_scrape.
    destruct (scrapeWebsite_callback_cases websiteUrl ev) as [[error ->]|[[item ->]| ->]];
      cbn [non_null default];
      (apply consistent_store_finish; [exact C0|exact Other|]);
      cbn; intros e' H'; rewrite H in H'; injection H' as <-; rewrite Q.
    + apply record_failed_fetch.
    + apply record_schema.
    + apply record_nothing.
Qed.

Lemma reached_consistent st :
  reached JSON_parse decodeURIComponent st → consistent st.
Proof.
  induction 1 as [|st a _ IH]; [exact consistent_initial|].
  destruct a as [W|venueId|i ev]; cbn [perform].
  - exact (consistent_scan W st IH).
  - exact (consistent_extract venueId st IH).
  - exact (consistent_answer i ev st IH).
Qed.


End AnyRunFacts.

(** A venue the scan stores has a name that is not blank, and the entry
    carries that name. *)
Lemma eligible_name v :
  eligible (Some v) = true →
  isEmpty (attr_name (attributes v)) = false
  ∧ attr_name (attributes v)
    = Some (JsString.or_default (attr_name (attributes v)) "Unnamed Venue").
Proof.
  cbn [eligible]. intros [[_ N]%andb_true_iff _]%andb_true_iff.
  apply negb_true_iff in N. rewrite unnamed_isEmpty in N. split; [exact N|].
  destruct (attr_name (attributes v)) as [[|x name]|]; try discriminate. reflexivity.
Qed.

Section RunTheorems.

Variable JSON_parse : string → option json.
Variable decodeURIComponent : string → option string.

Local Abbreviation reached_state := (reached JSON_parse decodeURIComponent).

(** X16: in every state the script reaches, no two pending requests work
    for the same venue identity, every pending request's identity is
    marked in flight, and the entry object it holds exists. *)
Theorem pending_requests_exclusive (st : State) :
  reached_state st →
  NoDup (request_id <$> requests st)
  ∧ ∀ r, r ∈ requests st →
         request_id r ∈ extractionInProgress st
         ∧ request_ref r < length (heap st).
Proof.
  intros C%reached_consistent. split; [exact (requests_exclusive st C)|].
  intros r In. split; [exact (requests_marked st C r In)|].
  destruct (requests_bound st C r In) as (e & H & _).
  exact (lookup_lt_Some _ _ _ H).
Qed.

(** X17: in every state the script reaches, each identity of the result set
    refers to an entry object made from a venue with that identity, as the
    scan read it; the entry's classification is the analysis of that venue,
    its severity is not MAJOR, and its name is the venue's name. *)
Theorem result_set_classified (st : State) (id : string) (ref : nat) :
  reached_state st → scannedVenues st !! id = Some ref →
  ∃ e, heap st !! ref = Some e
       ∧ attr_id (attributes (entry_venue e)) = id
       ∧ eligible (Some (entry_venue e)) = true
       ∧ entry_severity e = severity (analyzeVenue (entry_venue e))
       ∧ entry_missing e = missing (analyzeVenue (entry_venue e))
       ∧ entry_hasContactInfo e = hasContactInfo (analyzeVenue (entry_venue e))
       ∧ entry_severity e ≠ MAJOR
       ∧ attr_name (attributes (entry_venue e)) = Some (entry_name e).
Proof.
  intros C%reached_consistent L.
  destruct (refs_valid st C id ref L) as (e & H & Id).
  destruct (entries_scanned st C ref e H) as (E & location & S).
  exists e. split; [exact H|]. split; [exact Id|]. split; [exact E|].
  assert (entry_severity e = severity (analyzeVenue (entry_venue e))) as Sev
    by exact (f_equal entry_severity S).
  split; [exact Sev|].
  split; [exact (f_equal entry_missing S)|].
  split; [exact (f_equal entry_hasContactInfo S)|].
  destruct (eligible_name _ E) as [N Nm].
  split; [rewrite Sev; exact (named_never_MAJOR _ N)|].
  rewrite Nm at 1. f_equal. symmetry. exact (f_equal entry_name S).
Qed.

(** X18: in every state the script reaches, an extraction result is one of
    four objects: no search results, failed fetch, the fields of a
    structured-data item with the method 'Schema.org', or the method 'None'
    alone.  It carries the query built from its entry, and its method is
    never 'Microdata' or 'Regex'. *)
Theorem extraction_results_wellformed (st : State) (ref : nat) (e : ScanEntry)
    (record : gmap string json) :
  reached_state st → heap st !! ref = Some e → entry_extracted e = Some record →
  extraction_record (search_query e) record
  ∧ record !! "searchQuery" = Some (JStr (search_query e))
  ∧ (record !! "error" = None →
     record !! "method" = Some (JStr "Schema.org")
     ∨ record !! "method" = Some (JStr "None"))
  ∧ record !! "method" ≠ Some (JStr "Microdata")
  ∧ record !! "method" ≠ Some (JStr "Regex").
Proof.
  intros C%reached_consistent H E.
  pose proof (entries_extracted st C ref e record H E) as R.
  split; [exact R|].
  destruct R as [|websiteUrl|websiteUrl item|websiteUrl];
    (split; [reflexivity|]); (split; [|split; discriminate]).
  - discriminate.
  - discriminate.
  - left; reflexivity.
  - right; reflexivity.
Qed.

(** X19: in every state the script reaches, the four counters of
    [getStatistics] add up to the total, which is the size of the result
    set, and the counter of major issues is zero. *)
Theorem getStatistics_totals (st : State) :
  reached_state st →
  let stats := getStatistics st in
  stats_total stats = size (scannedVenues st)
  ∧ stats_complete stats + stats_minor stats + stats_major stats
    + stats_critical stats = stats_total stats
  ∧ stats_major stats = 0.
Proof.
  intros R. cbv zeta. unfold getStatistics.
  assert (∀ id ref, scannedVenues st !! id = Some ref →
            ∃ e, heap st !! ref = Some e ∧ entry_severity e ≠ MAJOR) as V.
  { intros id ref L.
    pose proof (reached_consistent _ _ _ R) as C.
    destruct (refs_valid st C id ref L) as (e & H & _).
    destruct (entries_scanned st C ref e H) as (E & location & S).
    exists e. split; [exact H|].
    rewrite (f_equal entry_severity S : entry_severity e = _).
    exact (named_never_MAJOR _ (proj1 (eligible_name _ E))). }
  pose (n := size (scannedVenues st)).
  pose (P := λ (stats : Statistics) (m : gmap string nat),
               (∀ id ref, m !! id = Some ref →
                  ∃ e, heap st !! ref = Some e ∧ entry_severity e ≠ MAJOR) →
               stats_total stats = n
               ∧ stats_complete stats + stats_minor stats + stats_major stats
                 + stats_critical stats = size m
               ∧ stats_major stats = 0).
  pose (step := λ (_ : string) (ref : nat) (stats : Statistics),
                  match heap st !! ref with
                  | Some data => count_severity (entry_severity data) stats
                  | None => stats
                  end).
  pose (start := {| stats_total := n; stats_complete := 0; stats_minor := 0;
                    stats_major := 0; stats_critical := 0 |}).
  assert (∀ m, P (map_fold step start m) m) as Fold.
  { apply (map_fold_weak_ind P step start); unfold P.
    - intros _. cbn. rewrite map_size_empty. auto.
    - intros id ref m stats N IH V'.
      destruct IH as (T & S & M).
      { intros id' ref' L. apply (V' id' ref'). rewrite lookup_insert_ne; [exact L|].
        intros ->. rewrite N in L. discriminate. }
      destruct (V' id ref) as (e & H & NM); [apply lookup_insert_eq|].
      unfold step. rewrite H, (map_size_insert_None _ _ _ N).
      destruct (entry_severity e); cbn; try contradiction; repeat split; lia. }
  destruct (Fold (scannedVenues st) V) as (T & S & M).
  fold n step start. rewrite T. auto.
Qed.

End RunTheorems.

Section RunTheorems2.

Variable JSON_parse : string → option json.
Variable decodeURIComponent : string → option string.

Local Abbreviation respond' := (deliver JSON_parse decodeURIComponent).



(** X22: a search response with a result link.  When the decoding of the
    captured text is a non-empty URL, the answer stores nothing and clears
    nothing: the search request is replaced by a page request for that URL
    with the same query, identity and entry object. *)
Theorem search_answer_found (st : State) (i : nat) (query id : string) (ref : nat)
    (html : string) (m : MatchResult) (g url : string) :
  requests st !! i = Some (SearchRequest query id ref) →
  String_match html urlRegex = Some m → group 1 m = Some g →
  decodeURIComponent g = Some url → url ≠ "" →
  respond' i (Onload html) st
  = set_requests (delete i (requests st) ++ [FetchRequest url query id ref]) st.
Proof.
  intros R M G D N. rewrite (deliver_at _ _ _ _ _ _ R). cbv zeta.
  cbn [googleSearch_callback]. rewrite M, G.
  assert (JsString.truthy g = true) as ->.
  { apply (exec_sound urlRegex _ html 0 m groups_good_urlRegex) in M as (_ & C & _).
    destruct (group_good _ _ _ _ C G) as [Ng _]. apply truthy_nonempty, Ng. }
  rewrite D. destruct url as [|c url]; [contradiction|]. reflexivity.
Qed.

End RunTheorems2.

(** ** The sample run *)

Lemma denver_searching_reached :
  reached ReferenceHost.JSON_parse ReferenceHost.decodeURIComponent denver_searching.
Proof.
  exact (reached_perform _ _ _ (ExtractClick "v1")
           (reached_perform _ _ _ (ScanClick denver) (reached_initial _ _))).
Qed.

Lemma denver_fetching_reached :
  reached ReferenceHost.JSON_parse ReferenceHost.decodeURIComponent denver_fetching.
Proof.
  exact (reached_perform _ _ _ (Answer 0 (Onload search_page)) denver_searching_reached).
Qed.

Lemma denver_after_fetch_timeout_reached :
  reached ReferenceHost.JSON_parse ReferenceHost.decodeURIComponent
    denver_after_fetch_timeout.
Proof.
  exact (reached_perform _ _ _ (Answer 0 Ontimeout) denver_fetching_reached).
Qed.


Lemma pending_requests_exclusive_witness :
  NoDup (request_id <$> requests denver_fetching)
  ∧ requests denver_fetching
    = [FetchRequest "https://joes.example/" "Joe's Cafe cafe Denver CO" "v1" 0].
Proof.
  split; [|vm_compute; reflexivity].
  exact (proj1 (pending_requests_exclusive _ _ denver_fetching denver_fetching_reached)).
Defined.

Lemma result_set_classified_witness :
  ∃ e, heap denver_after_fetch_timeout !! 0 = Some e
       ∧ entry_severity e = CRITICAL ∧ entry_name e = "Joe's Cafe".
Proof.
  destruct (result_set_classified _ _ denver_after_fetch_timeout "v1" 0
              denver_after_fetch_timeout_reached)
    as (e & H & _); [vm_compute; reflexivity|].
  exists e. split; [exact H|].
  vm_compute in H. injection H as <-. split; reflexivity.
Defined.

Lemma extraction_results_wellformed_witness :
  failed_fetch_record "Joe's Cafe cafe Denver CO" "https://joes.example/" !! "method"
  ≠ Some (JStr "Microdata").
Proof.
  refine (proj1 (proj2 (proj2 (proj2
    (extraction_results_wellformed _ _ denver_after_fetch_timeout 0
       (set_extracted
          (failed_fetch_record "Joe's Cafe cafe Denver CO" "https://joes.example/")
          (entry_for (location_of denver) joes_cafe))
       (failed_fetch_record "Joe's Cafe cafe Denver CO" "https://joes.example/")
       denver_after_fetch_timeout_reached _ _))))).
  - vm_compute; reflexivity.
  - reflexivity.
Defined.

Lemma getStatistics_totals_witness :
  getStatistics denver_after_fetch_timeout
  = {| stats_total := 1; stats_complete := 0; stats_minor := 0; stats_major := 0;
       stats_critical := 1 |}
  ∧ stats_major (getStatistics denver_after_fetch_timeout) = 0.
Proof.
  split; [vm_compute; reflexivity|].
  exact (proj2 (proj2 (getStatistics_totals _ _ denver_after_fetch_timeout
                         denver_after_fetch_timeout_reached))).
Defined.



Lemma search_answer_found_witness :
  denver_fetching
  = set_requests
      [FetchRequest "https://joes.example/" "Joe's Cafe cafe Denver CO" "v1" 0]
      denver_searching.
Proof.
  destruct (String_match search_page urlRegex) as [m|] eqn:M;
    [|vm_compute in M; discriminate M].
  destruct (group 1 m) as [g|] eqn:G;
    [|vm_compute in M; injection M as <-; vm_compute in G; discriminate G].
  assert (g = "https://joes.example/") as ->
    by (vm_compute in M; injection M as <-; vm_compute in G; congruence).
  exact (search_answer_found ReferenceHost.JSON_parse ReferenceHost.decodeURIComponent
           denver_searching 0 "Joe's Cafe cafe Denver CO" "v1" 0 search_page m
           "https://joes.example/" "https://joes.example/"
           ltac:(vm_compute; reflexivity) M G ltac:(vm_compute; reflexivity)
           ltac:(discriminate)).
Defined.

(** ** The size of the result set *)

Lemma dom_insert_all ref l (m : gmap string nat) :
  dom (insert_all ref l m)
  = list_to_set ((λ v, attr_id (attributes v)) <$> l) ∪ dom m.
Proof.
  revert ref m. induction l as [|v l IH]; intros ref m; cbn [insert_all fmap list_fmap].
  - rewrite list_to_set_nil, (left_id_L ∅ (∪)). reflexivity.
  - rewrite IH, dom_insert_L, list_to_set_cons.
    rewrite (assoc_L (∪)), (comm_L (∪) (list_to_set _) {[_]}). reflexivity.
Qed.

Lemma size_list_to_set_le (l : list string) :
  size (list_to_set l : gset string) ≤ length l.
Proof.
  induction l as [|x l IH]; [rewrite list_to_set_nil, size_empty; cbn; lia|].
  rewrite list_to_set_cons. cbn [length].
  destruct (decide (x ∈ (list_to_set l : gset string))) as [In|Out].
  - rewrite (subseteq_union_1_L {[x]} (list_to_set l));
      [lia|apply singleton_subseteq_l, In].
  - rewrite size_union by (apply disjoint_singleton_l, Out).
    rewrite size_singleton. lia.
Qed.

(** X23: after a scan the result set has one entry for each identity among
    the stored venues: at most as many entries as the scan counted, and as
    many when the identities of the stored venues differ from one
    another. *)
Theorem result_set_size (W : option WazeModel) (st : State) :
  let ids := (λ v, attr_id (attributes v)) <$> eligible_venues W in
  let scanned := returned (scanLoadedVenues W (set_scannedVenues ∅ st)) in
  dom (scannedVenues (handleScanClick W st)) = list_to_set ids
  ∧ size (scannedVenues (handleScanClick W st)) ≤ scanned
  ∧ (NoDup ids → size (scannedVenues (handleScanClick W st)) = scanned).
Proof.
  cbv zeta. rewrite handleScanClick_eq, scanLoadedVenues_eq.
  cbn [scannedVenues returned].
  assert (dom (insert_all (length (heap st)) (eligible_venues W) ∅)
          = list_to_set ((λ v, attr_id (attributes v)) <$> eligible_venues W)) as D.
  { rewrite dom_insert_all, dom_empty_L, (right_id_L ∅ (∪)). reflexivity. }
  split; [exact D|].
  rewrite <- (size_dom (D := gset string)), D.
  rewrite <- (length_fmap (λ v, attr_id (attributes v)) (eligible_venues W)).
  split; [apply size_list_to_set_le|]. intros N. apply size_list_to_set, N.
Qed.

Lemma result_set_size_witness :
  size (scannedVenues (handleScanClick (model_of [Some joes_cafe; Some complete_venue])
                         initial_state)) = 2
  ∧ size (scannedVenues (handleScanClick (model_of [Some joes_cafe; Some joes_cafe])
                           initial_state)) = 1.
Proof.
  split; [|vm_compute; reflexivity].
  destruct (result_set_size (model_of [Some joes_cafe; Some complete_venue]) initial_state)
    as (_ & _ & E).
  rewrite E; [vm_compute; reflexivity|].
  vm_compute. repeat constructor; rewrite ?elem_of_cons, ?elem_of_nil;
    intros H; repeat destruct H as [H|H]; try discriminate H; exact H.
Defined.
